(** * A shallow embedding of the RethinkDB pretty printer (src/pprint/pprint.cc)

    The printer is a chain of four stages: a generator that walks the
    document tree, an annotator, a group-begin corrector and the output
    visitor.  Every stage is a visitor object that owns some state and
    pushes stream elements to the next stage through a [thunk_t].  Here a
    stage is a function from a stream element and the stage's state (which
    holds the state of the stages behind it) to an [outcome]; the
    [guarantee] calls of the source, and the calls whose behaviour C++
    leaves undefined ([back] and [pop_back] on an empty vector, reading an
    unset optional), are the [Crash] outcomes.

    [unsigned int] is 32 bits wide: every assignment to such a variable is
    written with [uint], the reduction modulo [2^32]. *)

From Stdlib Require Import ZArith List String Ascii Bool Lia.
Import ListNotations.

Local Open Scope Z_scope.
Local Open Scope list_scope.

(** ** Machine integers and strings *)

Definition uint_max : Z := 2 ^ 32.

(** The value an [unsigned int] holds after [z] is assigned to it. *)
Definition uint (z : Z) : Z := z mod uint_max.

(** [std::string::size] and [std::string::length]. *)
Definition size (s : string) : Z := Z.of_nat (String.length s).

(** The character ['\n']. *)
Definition newline : ascii := "010"%char.

(** [std::string(n, ' ')]. *)
Fixpoint spaces_nat (n : nat) : string :=
  match n with
  | O => EmptyString
  | S k => String " "%char (spaces_nat k)
  end.

Definition spaces (n : Z) : string := spaces_nat (Z.to_nat n).

(** ** Documents *)

#[local] Unset Elimination Schemes.
Inductive document : Type :=
| text_t (text : string)
| cond_t (small cont tail : string)
| concat_t (children : list document)
| group_t (child : document)
| nest_t (child : document).
#[local] Set Elimination Schemes.

(** Induction on documents; the children of a [concat_t] all satisfy the
    property. *)
Section DocumentInduction.
Variable P : document -> Prop.
Hypothesis Htext : forall text, P (text_t text).
Hypothesis Hcond : forall small cont tail, P (cond_t small cont tail).
Hypothesis Hconcat : forall children, Forall P children -> P (concat_t children).
Hypothesis Hgroup : forall child, P child -> P (group_t child).
Hypothesis Hnest : forall child, P child -> P (nest_t child).

Fixpoint document_ind (d : document) : P d :=
  match d with
  | text_t text => Htext text
  | cond_t small cont tail => Hcond small cont tail
  | concat_t children =>
      Hconcat children
        ((fix all (ds : list document) : Forall P ds :=
            match ds with
            | [] => Forall_nil P
            | d' :: ds' => Forall_cons d' (document_ind d') (all ds')
            end) children)
  | group_t child => Hgroup child (document_ind child)
  | nest_t child => Hnest child (document_ind child)
  end.
End DocumentInduction.

(** The virtual method [width] of the five document classes. *)
Fixpoint width (d : document) : Z :=
  match d with
  | text_t text => uint (size text)
  | cond_t small _ _ => uint (size small)
  | concat_t children =>
      fold_left (fun w child => uint (w + width child)) children 0
  | group_t child => width child
  | nest_t child => width child
  end.

Definition make_text (text : string) : document := text_t text.
Definition make_cond (l r t : string) : document := cond_t l r t.
Definition make_concat (args : list document) : document := concat_t args.
Definition make_group (child : document) : document := group_t child.
Definition make_nest (child : document) : document := nest_t child.

Definition empty : document := text_t "".
Definition br : document := cond_t " " "" "".
Definition dot : document := cond_t "." "." "".

Definition comma_separated (init : list document) : document :=
  match init with
  | [] => empty
  | first :: rest =>
      make_nest
        (make_concat
           (first :: flat_map (fun d => [text_t ","; br; d]) rest))
  end.

Definition arglist (init : list document) : document :=
  make_concat [text_t "("; comma_separated init; text_t ")"].

(** The loop of [dotted_list_int] over the elements after the first. *)
Fixpoint dotted_tail (first : bool) (rest : list document) : list document :=
  match rest with
  | [] => []
  | d :: rest' => (if first then text_t "." else dot) :: d :: dotted_tail false rest'
  end.

Definition dotted_list_int (init : list document) : document :=
  match init with
  | [] => empty
  | [d] => make_nest d
  | d :: rest =>
      make_concat [d; make_nest (make_concat (dotted_tail true rest))]
  end.

Definition dotted_list (init : list document) : document :=
  dotted_list_int init.

Definition funcall (name : string) (init : list document) : document :=
  make_concat [make_text name; arglist init].


(** ** Stream elements

    Every element carries the optional [hpos] of [stream_element_t].  It is
    a [size_t]; the values stored in it come from [unsigned int] variables,
    so it is kept as an integer, and where the source reads it into an
    [unsigned int] the read is written with [uint]. *)

Inductive stream_element_t : Type :=
| text_element_t (payload : string) (hpos : option Z)
| cond_element_t (small tail cont : string) (hpos : option Z)
| nbeg_element_t (hpos : option Z)
| nend_element_t (hpos : option Z)
| gbeg_element_t (hpos : option Z)
| gend_element_t (hpos : option Z).

Definition hpos_of (e : stream_element_t) : option Z :=
  match e with
  | text_element_t _ h => h
  | cond_element_t _ _ _ h => h
  | nbeg_element_t h => h
  | nend_element_t h => h
  | gbeg_element_t h => h
  | gend_element_t h => h
  end.

(** ** Outcomes *)

Inductive failure : Type :=
| guarantee_failed   (* a [guarantee] did not hold *)
| back_of_empty      (* [lookahead.back()] on an empty vector *)
| pop_of_empty       (* [indent.pop_back()] on an empty vector *)
| hpos_unset.        (* [*hpos] on an optional that holds nothing *)

Inductive outcome (A : Type) : Type :=
| Done (a : A)
| Crash (f : failure).

Arguments Done {A} a.
Arguments Crash {A} f.

Definition bind {A B : Type} (m : outcome A) (k : A -> outcome B) : outcome B :=
  match m with
  | Done a => k a
  | Crash f => Crash f
  end.

Notation "x <- m ;; k" := (bind m (fun x => k))
  (at level 61, m at next level, right associativity).

Definition guarantee (b : bool) : outcome unit :=
  if b then Done tt else Crash guarantee_failed.

Definition is_set (h : option Z) : bool :=
  match h with Some _ => true | None => false end.

(** A [thunk_t] whose visitor has state [S]: calling it on an element
    changes that state or crashes. *)
Definition thunk_t (S : Type) : Type := stream_element_t -> S -> outcome S.

(** Calling a thunk on the elements of a list, first to last. *)
Fixpoint feed {S : Type} (fn : thunk_t S) (l : list stream_element_t) (s : S)
  : outcome S :=
  match l with
  | [] => Done s
  | e :: l' => s' <- fn e s ;; feed fn l' s'
  end.

(** ** First phase: [generate_stream_visitor_t] *)

Section Generate.
Context {S : Type} (fn : thunk_t S).

Fixpoint generate_stream (doc : document) (s : S) : outcome S :=
  match doc with
  | text_t text => fn (text_element_t text None) s
  | cond_t small cont tail => fn (cond_element_t small tail cont None) s
  | concat_t children =>
      (fix for_each (ds : list document) (s : S) : outcome S :=
         match ds with
         | [] => Done s
         | d :: ds' => s' <- generate_stream d s ;; for_each ds' s'
         end) children s
  | group_t child =>
      s1 <- fn (gbeg_element_t None) s ;;
      s2 <- generate_stream child s1 ;;
      fn (gend_element_t None) s2
  | nest_t child =>
      s1 <- fn (nbeg_element_t None) s ;;
      s2 <- fn (gbeg_element_t None) s1 ;;
      s3 <- generate_stream child s2 ;;
      s4 <- fn (gend_element_t None) s3 ;;
      fn (nend_element_t None) s4
  end.
End Generate.

(** ** Second phase: [annotate_stream_visitor_t] *)

Record annotate_stream_visitor_t (S : Type) : Type := mk_annotate {
  position : Z;
  annotate_fn : S
}.
Arguments mk_annotate {S}.
Arguments position {S}.
Arguments annotate_fn {S}.

Section Annotate.
Context {S : Type} (fn : thunk_t S).

Definition annotate_visit : thunk_t (annotate_stream_visitor_t S) :=
  fun e v =>
    match e with
    | text_element_t payload _ =>
        let position' := uint (position v + size payload) in
        s <- fn (text_element_t payload (Some position')) (annotate_fn v) ;;
        Done (mk_annotate position' s)
    | cond_element_t small tail cont _ =>
        let position' := uint (position v + size small) in
        s <- fn (cond_element_t small tail cont (Some position')) (annotate_fn v) ;;
        Done (mk_annotate position' s)
    | gbeg_element_t h =>
        s <- fn (gbeg_element_t h) (annotate_fn v) ;;
        Done (mk_annotate (position v) s)
    | gend_element_t _ =>
        s <- fn (gend_element_t (Some (position v))) (annotate_fn v) ;;
        Done (mk_annotate (position v) s)
    | nbeg_element_t h =>
        s <- fn (nbeg_element_t h) (annotate_fn v) ;;
        Done (mk_annotate (position v) s)
    | nend_element_t _ =>
        s <- fn (nend_element_t (Some (position v))) (annotate_fn v) ;;
        Done (mk_annotate (position v) s)
    end.
End Annotate.

Definition annotate_stream {S : Type} (s : S) : annotate_stream_visitor_t S :=
  mk_annotate 0 s.

(** ** Third phase: [correct_gbeg_visitor_t]

    [lookahead] is the vector of buffers, its back at the head of the
    list; a buffer lists its elements front to back. *)

Record correct_gbeg_visitor_t (S : Type) : Type := mk_correct {
  lookahead : list (list stream_element_t);
  correct_fn : S
}.
Arguments mk_correct {S}.
Arguments lookahead {S}.
Arguments correct_fn {S}.

Section Correct.
Context {S : Type} (fn : thunk_t S).

Definition maybe_push (e : stream_element_t) (v : correct_gbeg_visitor_t S)
  : outcome (correct_gbeg_visitor_t S) :=
  match lookahead v with
  | [] => s <- fn e (correct_fn v) ;; Done (mk_correct [] s)
  | b :: rest => Done (mk_correct ((b ++ [e]) :: rest) (correct_fn v))
  end.

Definition correct_visit : thunk_t (correct_gbeg_visitor_t S) :=
  fun e v =>
    match e with
    | text_element_t _ h => _ <- guarantee (is_set h) ;; maybe_push e v
    | cond_element_t _ _ _ h => _ <- guarantee (is_set h) ;; maybe_push e v
    | nbeg_element_t h => _ <- guarantee (negb (is_set h)) ;; maybe_push e v
    | nend_element_t h => _ <- guarantee (is_set h) ;; maybe_push e v
    | gbeg_element_t h =>
        _ <- guarantee (negb (is_set h)) ;;
        Done (mk_correct ([] :: lookahead v) (correct_fn v))
    | gend_element_t h =>
        _ <- guarantee (is_set h) ;;
        match lookahead v with
        | [] => Crash back_of_empty
        | b :: rest =>
            match rest with
            | [] =>
                s1 <- fn (gbeg_element_t h) (correct_fn v) ;;
                s2 <- feed fn b s1 ;;
                s3 <- fn e s2 ;;
                Done (mk_correct [] s3)
            | b2 :: rest' =>
                Done (mk_correct
                        ((b2 ++ [gbeg_element_t h] ++ b ++ [e]) :: rest')
                        (correct_fn v))
            end
        end
    end.
End Correct.

Definition correct_gbeg_stream {S : Type} (s : S) : correct_gbeg_visitor_t S :=
  mk_correct [] s.

(** ** Final phase: [output_visitor_t]

    [indent] has its back at the head of the list. *)

Record output_visitor_t : Type := mk_output {
  out_width : Z;
  fittingElements : Z;
  rightEdge : Z;
  out_hpos : Z;
  indent : list Z;
  result : string
}.

Definition output_visitor (w : Z) : output_visitor_t :=
  mk_output w 0 w 0 [] "".

Definition output_visit : thunk_t output_visitor_t :=
  fun e v =>
    match e with
    | text_element_t payload _ =>
        Done (mk_output (out_width v) (fittingElements v) (rightEdge v)
                (uint (out_hpos v + size payload)) (indent v)
                (result v ++ payload)%string)
    | cond_element_t small tail cont h =>
        if fittingElements v =? 0 then
          let currentIndent := match indent v with [] => 0 | i :: _ => i end in
          let hpos' := uint (currentIndent + size cont) in
          match h with
          | None => Crash hpos_unset
          | Some c_hpos =>
              Done (mk_output (out_width v) 0
                      (uint (uint (out_width v - hpos') + c_hpos))
                      hpos' (indent v)
                      (result v ++ tail ++ String newline (spaces currentIndent ++ cont))%string)
          end
        else
          Done (mk_output (out_width v) (fittingElements v) (rightEdge v)
                  (uint (out_hpos v + size small)) (indent v)
                  (result v ++ small)%string)
    | gbeg_element_t h =>
        if negb (fittingElements v =? 0) then
          Done (mk_output (out_width v) (uint (fittingElements v + 1))
                  (rightEdge v) (out_hpos v) (indent v) (result v))
        else
          match h with
          | None => Crash hpos_unset
          | Some e_hpos =>
              if uint e_hpos <=? rightEdge v then
                Done (mk_output (out_width v) (uint (fittingElements v + 1))
                        (rightEdge v) (out_hpos v) (indent v) (result v))
              else
                Done (mk_output (out_width v) 0
                        (rightEdge v) (out_hpos v) (indent v) (result v))
          end
    | gend_element_t _ =>
        if negb (fittingElements v =? 0) then
          Done (mk_output (out_width v) (uint (fittingElements v - 1))
                  (rightEdge v) (out_hpos v) (indent v) (result v))
        else Done v
    | nbeg_element_t _ =>
        Done (mk_output (out_width v) (fittingElements v) (rightEdge v)
                (out_hpos v) (out_hpos v :: indent v) (result v))
    | nend_element_t _ =>
        match indent v with
        | [] => Crash pop_of_empty
        | _ :: rest =>
            Done (mk_output (out_width v) (fittingElements v) (rightEdge v)
                    (out_hpos v) rest (result v))
        end
    end.

(** ** The chain *)

Definition pretty_print (w : Z) (doc : document) : outcome string :=
  let output := output_visitor (uint w) in
  let corr_gbeg := correct_gbeg_stream output in
  let annotate := annotate_stream corr_gbeg in
  v <- generate_stream (annotate_visit (correct_visit output_visit)) doc annotate ;;
  Done (result (correct_fn (annotate_fn v))).

(** ** The stages as passes over lists

    The elements the generator hands to its thunk, in order. *)
Fixpoint emitted (doc : document) : list stream_element_t :=
  match doc with
  | text_t text => [text_element_t text None]
  | cond_t small cont tail => [cond_element_t small tail cont None]
  | concat_t children => flat_map emitted children
  | group_t child => gbeg_element_t None :: emitted child ++ [gend_element_t None]
  | nest_t child =>
      nbeg_element_t None :: gbeg_element_t None :: emitted child
        ++ [gend_element_t None; nend_element_t None]
  end.

(** What the annotator forwards for one element at position [p], and its
    position afterwards. *)
Definition annotate_element (p : Z) (e : stream_element_t) : stream_element_t * Z :=
  match e with
  | text_element_t payload _ =>
      let p' := uint (p + size payload) in (text_element_t payload (Some p'), p')
  | cond_element_t small tail cont _ =>
      let p' := uint (p + size small) in (cond_element_t small tail cont (Some p'), p')
  | gbeg_element_t h => (gbeg_element_t h, p)
  | gend_element_t _ => (gend_element_t (Some p), p)
  | nbeg_element_t h => (nbeg_element_t h, p)
  | nend_element_t _ => (nend_element_t (Some p), p)
  end.

Fixpoint annotated (p : Z) (l : list stream_element_t) : list stream_element_t :=
  match l with
  | [] => []
  | e :: l' =>
      let (e', p') := annotate_element p e in e' :: annotated p' l'
  end.

Fixpoint position_after (p : Z) (l : list stream_element_t) : Z :=
  match l with
  | [] => p
  | e :: l' => position_after (snd (annotate_element p e)) l'
  end.

(** The stream a document puts before the output visitor when the
    annotator stands at position [p]: the elements of [emitted] with their
    positions, each group begin carrying the position of the end of its
    group. *)
Fixpoint corrected (p : Z) (doc : document) : list stream_element_t :=
  match doc with
  | text_t text => [text_element_t text (Some (uint (p + size text)))]
  | cond_t small cont tail =>
      [cond_element_t small tail cont (Some (uint (p + size small)))]
  | concat_t children =>
      (fix go (p : Z) (ds : list document) : list stream_element_t :=
         match ds with
         | [] => []
         | d :: ds' => corrected p d ++ go (position_after p (emitted d)) ds'
         end) p children
  | group_t child =>
      let q := position_after p (emitted child) in
      gbeg_element_t (Some q) :: corrected p child ++ [gend_element_t (Some q)]
  | nest_t child =>
      let q := position_after p (emitted child) in
      nbeg_element_t None :: gbeg_element_t (Some q) :: corrected p child
        ++ [gend_element_t (Some q); nend_element_t (Some q)]
  end.

Definition corrected_children (p : Z) (ds : list document) : list stream_element_t :=
  (fix go (p : Z) (ds : list document) : list stream_element_t :=
     match ds with
     | [] => []
     | d :: ds' => corrected p d ++ go (position_after p (emitted d)) ds'
     end) p ds.

(** The thunk that only records what it is called on. *)
Definition record : thunk_t (list stream_element_t) :=
  fun e l => Done (l ++ [e]).

(** The streams that leave the annotator and the corrector, observed by
    putting [record] behind them. *)
Definition annotated_stream (doc : document)
  : outcome (annotate_stream_visitor_t (list stream_element_t)) :=
  generate_stream (annotate_visit record) doc (annotate_stream []).

Definition corrected_stream (doc : document) : outcome (list stream_element_t) :=
  v <- generate_stream (annotate_visit (correct_visit record)) doc
         (annotate_stream (correct_gbeg_stream [])) ;;
  Done (correct_fn (annotate_fn v)).

(** What the corrector does with the annotated elements of a document:
    outside every group it hands the corrected elements on, inside a group
    it appends them to the buffer at the back of [lookahead]. *)
Definition correct_pass {S} (fn : thunk_t S) (l : list stream_element_t)
  (v : correct_gbeg_visitor_t S) : outcome (correct_gbeg_visitor_t S) :=
  match lookahead v with
  | [] => s <- feed fn l (correct_fn v) ;; Done (mk_correct [] s)
  | b :: rest => Done (mk_correct ((b ++ l) :: rest) (correct_fn v))
  end.

(** ** Observing the output visitor

    What the output visitor decides on an element, read off its state
    before the call: a [cond_element_t] breaks when [fittingElements] is
    zero and then indents by the back of [indent]; an [nbeg_element_t]
    records the current column. *)

Inductive observation : Type :=
| Broke (e : stream_element_t) (indentation : Z)
| Flat (e : stream_element_t)
| Opened (column : Z)
| Closed.

Definition currentIndent (v : output_visitor_t) : Z :=
  match indent v with [] => 0 | i :: _ => i end.

Definition observe (e : stream_element_t) (v : output_visitor_t) : list observation :=
  match e with
  | cond_element_t _ _ _ _ =>
      if fittingElements v =? 0 then [Broke e (currentIndent v)] else [Flat e]
  | nbeg_element_t _ => [Opened (out_hpos v)]
  | nend_element_t _ => [Closed]
  | _ => []
  end.

(** The output visitor with a log of its decisions beside it. *)
Definition observe_visit : thunk_t (output_visitor_t * list observation) :=
  fun e s =>
    v' <- output_visit e (fst s) ;;
    Done (v', snd s ++ observe e (fst s)).

Definition render_log (w : Z) (doc : document) : outcome (list observation) :=
  r <- generate_stream (annotate_visit (correct_visit observe_visit)) doc
         (annotate_stream (correct_gbeg_stream (output_visitor (uint w), []))) ;;
  Done (snd (correct_fn (annotate_fn r))).

(** The decisions taken along a list of elements. *)
Fixpoint observations (l : list stream_element_t) (v : output_visitor_t)
  : list observation :=
  match l with
  | [] => []
  | e :: l' =>
      observe e v ++
      match output_visit e v with
      | Done v' => observations l' v'
      | Crash _ => []
      end
  end.

(** Two elements that differ at most in the [tail] of a [cond_element_t]. *)
Definition tail_variant (e e' : stream_element_t) : Prop :=
  match e, e' with
  | cond_element_t small _ cont h, cond_element_t small' _ cont' h' =>
      small = small' /\ cont = cont' /\ h = h'
  | _, _ => e = e'
  end.

Definition is_broke (o : observation) : bool :=
  match o with Broke _ _ => true | _ => false end.

(** ** Measures of strings, streams and documents *)

Fixpoint count_newlines (s : string) : nat :=
  match s with
  | EmptyString => O
  | String c s' =>
      ((if Ascii.eqb c newline then 1 else 0) + count_newlines s')%nat
  end.

(** The text an element shows when no break is taken. *)
Definition flat_text (e : stream_element_t) : string :=
  match e with
  | text_element_t payload _ => payload
  | cond_element_t small _ _ _ => small
  | _ => ""
  end.

(** The texts of a stream in order, every [cond_element_t] by its [small]. *)
Fixpoint flat_string (l : list stream_element_t) : string :=
  match l with
  | [] => ""
  | e :: l' => (flat_text e ++ flat_string l')%string
  end.

(** The length of the flat text of a stream as an integer, and as the
    [unsigned int] a column counter holds. *)
Definition flat_len (l : list stream_element_t) : Z := size (flat_string l).

Definition flat_width (l : list stream_element_t) : Z := uint (flat_len l).

Definition is_begin (e : stream_element_t) : bool :=
  match e with
  | nbeg_element_t _ | gbeg_element_t _ => true
  | _ => false
  end.

(** Balance of the begin and end elements of a stream: [open] lists the
    groups and nests that are open, innermost first. *)
Inductive bracket : Type := group_bracket | nest_bracket.

Fixpoint well_nested (open : list bracket) (l : list stream_element_t) : bool :=
  match l with
  | [] => match open with [] => true | _ => false end
  | gbeg_element_t _ :: l' => well_nested (group_bracket :: open) l'
  | nbeg_element_t _ :: l' => well_nested (nest_bracket :: open) l'
  | gend_element_t _ :: l' =>
      match open with
      | group_bracket :: open' => well_nested open' l'
      | _ => false
      end
  | nend_element_t _ :: l' =>
      match open with
      | nest_bracket :: open' => well_nested open' l'
      | _ => false
      end
  | _ :: l' => well_nested open l'
  end.

(** An element without its [hpos]. *)
Definition forget (e : stream_element_t) : stream_element_t :=
  match e with
  | text_element_t payload _ => text_element_t payload None
  | cond_element_t small tail cont _ => cond_element_t small tail cont None
  | nbeg_element_t _ => nbeg_element_t None
  | nend_element_t _ => nend_element_t None
  | gbeg_element_t _ => gbeg_element_t None
  | gend_element_t _ => gend_element_t None
  end.

(** The index in [l] of the [gend_element_t] that closes the group open
    at the start of [l], when [depth] groups have been opened inside it
    and not yet closed. *)
Fixpoint group_end (depth : nat) (l : list stream_element_t) : option nat :=
  match l with
  | [] => None
  | gbeg_element_t _ :: l' => option_map S (group_end (S depth) l')
  | gend_element_t _ :: l' =>
      match depth with
      | O => Some O
      | S k => option_map S (group_end k l')
      end
  | _ :: l' => option_map S (group_end depth l')
  end.

(** Every [gbeg_element_t] of [l] carries the [hpos] of the
    [gend_element_t] that closes it, and that is the flat width of the
    stream up to this end, when the flat text before [l] has length [p]. *)
Fixpoint groups_matched (p : Z) (l : list stream_element_t) : Prop :=
  match l with
  | [] => True
  | e :: l' =>
      match e with
      | gbeg_element_t h =>
          exists i q,
            group_end 0 l' = Some i
            /\ nth_error l' i = Some (gend_element_t (Some q))
            /\ h = Some q
            /\ q = uint (p + flat_len (firstn (S i) l'))
      | _ => True
      end
      /\ groups_matched (p + size (flat_text e)) l'
  end.

(** What the corrector may do to an element on its way: nothing, but for
    a [gbeg_element_t], in whose place it sends one that has an [hpos]. *)
Definition passed_on (a c : stream_element_t) : Prop :=
  match a with
  | gbeg_element_t _ => exists q, c = gbeg_element_t (Some q)
  | _ => c = a
  end.

Definition hpos_defined (e : stream_element_t) : Prop :=
  match e with
  | nbeg_element_t _ => True
  | _ => exists q, hpos_of e = Some q
  end.

(** Every [cond_t] of the document lies inside a [group_t] or a [nest_t]. *)
Fixpoint guarded (doc : document) : bool :=
  match doc with
  | text_t _ => true
  | cond_t _ _ _ => false
  | concat_t children => forallb guarded children
  | group_t _ => true
  | nest_t _ => true
  end.

(** How deep groups and nests are nested in a document. *)
Fixpoint nesting (doc : document) : Z :=
  match doc with
  | text_t _ => 0
  | cond_t _ _ _ => 0
  | concat_t children => fold_right (fun d m => Z.max (nesting d) m) 0 children
  | group_t child => nesting child + 1
  | nest_t child => nesting child + 1
  end.

(** No [cond_t] of the document has a [cont] longer than its [small]. *)
Fixpoint conts_short (doc : document) : bool :=
  match doc with
  | text_t _ => true
  | cond_t small cont _ => size cont <=? size small
  | concat_t children => forallb conts_short children
  | group_t child => conts_short child
  | nest_t child => conts_short child
  end.

(** A conditional that was laid out flat has an empty [small]. *)
Definition flat_small_empty (o : observation) : Prop :=
  match o with
  | Flat (cond_element_t small _ _ _) => small = ""%string
  | _ => True
  end.


(** The [cont] of a conditional is no longer than its [small]. *)
Definition cont_short (e : stream_element_t) : bool :=
  match e with
  | cond_element_t small _ cont _ => size cont <=? size small
  | _ => true
  end.

(** The state of the output visitor agrees with the flat position [p] of
    the stream: the column is not beyond it, the anchors neither, and
    [rightEdge] is the page width moved by the distance between the two. *)
Definition edge_invariant (W : Z) (v : output_visitor_t) (p : Z) : Prop :=
  out_width v = W
  /\ 0 <= out_hpos v <= p
  /\ rightEdge v = W + p - out_hpos v
  /\ Forall (fun i => 0 <= i <= p) (indent v)
  /\ 0 <= fittingElements v.

(** Documents whose groups only nest.  [group_free]: the document emits
    no begin or end of a group or nest; [nested_groups]: no group or nest
    of the document comes after another one has closed. *)
Definition is_plain_element (e : stream_element_t) : bool :=
  match e with
  | text_element_t _ _ | cond_element_t _ _ _ _ => true
  | _ => false
  end.

Definition group_free (doc : document) : bool :=
  forallb is_plain_element (emitted doc).

Inductive nested_groups : document -> Prop :=
| nested_groups_none (doc : document) :
    group_free doc = true -> nested_groups doc
| nested_groups_group (child : document) :
    nested_groups child -> nested_groups (group_t child)
| nested_groups_nest (child : document) :
    nested_groups child -> nested_groups (nest_t child)
| nested_groups_concat (before : list document) (doc : document)
    (after : list document) :
    forallb group_free before = true ->
    nested_groups doc ->
    forallb group_free after = true ->
    nested_groups (concat_t (before ++ doc :: after)).

(** No [small] string of the document holds a newline. *)
Definition small_newline_free (e : stream_element_t) : bool :=
  match e with
  | cond_element_t small _ _ _ => Nat.eqb (count_newlines small) 0
  | _ => true
  end.

Definition smalls_newline_free (doc : document) : bool :=
  forallb small_newline_free (emitted doc).

(** The newlines a stream of texts and conditionals puts out when every
    conditional breaks. *)
Definition break_newlines (e : stream_element_t) : nat :=
  match e with
  | text_element_t payload _ => count_newlines payload
  | cond_element_t _ tail cont _ =>
      (count_newlines tail + 1 + count_newlines cont)%nat
  | _ => O
  end.

Fixpoint broken_newlines (l : list stream_element_t) : nat :=
  match l with
  | [] => O
  | e :: l' => (break_newlines e + broken_newlines l')%nat
  end.

(** Two states of the output visitor that differ at most in the page
    width, the right edge and the text put out. *)
Definition in_step (v1 v2 : output_visitor_t) : Prop :=
  fittingElements v1 = fittingElements v2
  /\ out_hpos v1 = out_hpos v2
  /\ indent v1 = indent v2.

(** On a document, the run at page width [W1] adds no more newlines than
    the run at page width [W2], when both start outside every group from
    states in step. *)
Definition monotone_run (W1 W2 : Z) (doc : document) : Prop :=
  conts_short doc = true ->
  smalls_newline_free doc = true ->
  forall p v1 v2,
    0 <= p ->
    edge_invariant W1 v1 p -> edge_invariant W2 v2 p ->
    in_step v1 v2 -> fittingElements v1 = 0 ->
    W1 + p + flat_len (emitted doc) < uint_max ->
    nesting doc < uint_max ->
    exists v1' v2',
      feed output_visit (corrected p doc) v1 = Done v1'
      /\ feed output_visit (corrected p doc) v2 = Done v2'
      /\ fittingElements v1' = 0 /\ fittingElements v2' = 0
      /\ indent v1' = indent v1 /\ indent v2' = indent v2
      /\ (count_newlines (result v1') + count_newlines (result v2)
          <= count_newlines (result v2') + count_newlines (result v1))%nat.

(** ** Further measures and predicates

    The text a stream of texts and conditionals puts out when every
    conditional breaks and indents by [n] columns. *)
Definition broken_text (n : Z) (e : stream_element_t) : string :=
  match e with
  | text_element_t payload _ => payload
  | cond_element_t _ tail cont _ =>
      (tail ++ String newline (spaces n ++ cont))%string
  | _ => ""%string
  end.

Fixpoint broken_string (n : Z) (l : list stream_element_t) : string :=
  match l with
  | [] => ""%string
  | e :: l' => (broken_text n e ++ broken_string n l')%string
  end.

(** [lays_out l s]: the string [s] is made of the pieces of the stream
    [l] in order, a text by its payload and a conditional either by its
    [small] or by its [tail], a newline, some spaces and its [cont]. *)
Inductive lays_out : list stream_element_t -> string -> Prop :=
| lays_out_nil : lays_out [] ""%string
| lays_out_text (payload : string) (h : option Z) l s :
    lays_out l s ->
    lays_out (text_element_t payload h :: l) (payload ++ s)%string
| lays_out_flat (small tail cont : string) (h : option Z) l s :
    lays_out l s ->
    lays_out (cond_element_t small tail cont h :: l) (small ++ s)%string
| lays_out_break (small tail cont : string) (h : option Z) (n : Z) l s :
    lays_out l s ->
    lays_out (cond_element_t small tail cont h :: l)
      ((tail ++ String newline (spaces n ++ cont)) ++ s)%string
| lays_out_skip e l s :
    is_plain_element e = false ->
    lays_out l s ->
    lays_out (e :: l) s.

(** No [nend_element_t] of [l] comes without a nest open, when [depth]
    nests are open at the start of [l]; likewise for the groups. *)
Fixpoint nests_closed (depth : nat) (l : list stream_element_t) : bool :=
  match l with
  | [] => true
  | nbeg_element_t _ :: l' => nests_closed (S depth) l'
  | nend_element_t _ :: l' =>
      match depth with
      | O => false
      | S k => nests_closed k l'
      end
  | _ :: l' => nests_closed depth l'
  end.

Fixpoint groups_closed (depth : nat) (l : list stream_element_t) : bool :=
  match l with
  | [] => true
  | gbeg_element_t _ :: l' => groups_closed (S depth) l'
  | gend_element_t _ :: l' =>
      match depth with
      | O => false
      | S k => groups_closed k l'
      end
  | _ :: l' => groups_closed depth l'
  end.

(** What the corrector's [guarantee] calls ask of an element: an [hpos]
    on everything but the begins, none on the begins. *)
Definition well_annotated (e : stream_element_t) : bool :=
  match e with
  | nbeg_element_t h | gbeg_element_t h => negb (is_set h)
  | _ => is_set (hpos_of e)
  end.

(** A thunk that never crashes. *)
Definition total_thunk {S : Type} (fn : thunk_t S) : Prop :=
  forall e s, exists s', fn e s = Done s'.

(** The column of the cursor after [s] has been written from column
    [start]: the number of characters after the last newline. *)
Fixpoint column_from (start : Z) (s : string) : Z :=
  match s with
  | EmptyString => start
  | String c s' => column_from (if Ascii.eqb c newline then 0 else start + 1) s'
  end.

Definition column (s : string) : Z := column_from 0 s.

(** The strings an element can leave on the current line hold no
    newline. *)
Definition line_strings_ok (e : stream_element_t) : bool :=
  match e with
  | text_element_t payload _ => Nat.eqb (count_newlines payload) 0
  | cond_element_t small _ cont _ =>
      Nat.eqb (count_newlines small) 0 && Nat.eqb (count_newlines cont) 0
  | _ => true
  end.

(** The output visitor's [hpos] is the column of its output, and its
    anchors are columns. *)
Definition column_invariant (v : output_visitor_t) : Prop :=
  out_hpos v = uint (column (result v)) /\ Forall (fun i => 0 <= i) (indent v).


(** ** Basic facts *)

Lemma bind_Done {A B} (a : A) (k : A -> outcome B) : (x <- Done a ;; k x) = k a.
Proof. reflexivity. Qed.

Lemma bind_assoc {A B C} (m : outcome A) (k : A -> outcome B) (k' : B -> outcome C) :
  (y <- (x <- m ;; k x) ;; k' y) = (x <- m ;; y <- k x ;; k' y).
Proof. destruct m; reflexivity. Qed.

Lemma bind_ret {A} (m : outcome A) : (x <- m ;; Done x) = m.
Proof. destruct m; reflexivity. Qed.

Lemma bind_ext {A B} (m : outcome A) (k k' : A -> outcome B) :
  (forall a, k a = k' a) -> (x <- m ;; k x) = (x <- m ;; k' x).
Proof. intros H. destruct m; simpl; auto. Qed.

Lemma feed_cons {S} (fn : thunk_t S) e l s :
  feed fn (e :: l) s = (s' <- fn e s ;; feed fn l s').
Proof. reflexivity. Qed.

Lemma feed_app {S} (fn : thunk_t S) l1 l2 s :
  feed fn (l1 ++ l2) s = (s' <- feed fn l1 s ;; feed fn l2 s').
Proof.
  revert s. induction l1 as [|e l1 IH]; intros s; simpl; [reflexivity|].
  destruct (fn e s) as [s'|f]; simpl; [apply IH | reflexivity].
Qed.

Ltac bind_solve :=
  repeat first
    [ reflexivity
    | rewrite bind_assoc
    | rewrite bind_ret
    | rewrite feed_app
    | apply bind_ext; intro
    | progress simpl ].

Lemma feed_record l acc : feed record l acc = Done (acc ++ l).
Proof.
  revert acc. induction l as [|e l IH]; intros acc; simpl.
  - now rewrite app_nil_r.
  - rewrite IH, <- app_assoc. reflexivity.
Qed.

(** The generator calls its thunk on the elements of [emitted], in order. *)
Lemma generate_stream_feed {S} (fn : thunk_t S) doc s :
  generate_stream fn doc s = feed fn (emitted doc) s.
Proof.
  revert s. induction doc as [t|sm c tl|ds IH|d IH|d IH] using document_ind; intros s.
  - simpl. now rewrite bind_ret.
  - simpl. now rewrite bind_ret.
  - simpl. revert s. induction IH as [|d ds Hd _ IHds]; intros s; [reflexivity|].
    simpl. rewrite feed_app, Hd. apply bind_ext. intros a. apply IHds.
  - simpl. apply bind_ext. intros s1. rewrite feed_app, IH.
    apply bind_ext. intros s2. simpl. now rewrite bind_ret.
  - simpl. apply bind_ext. intros s1. apply bind_ext. intros s2.
    rewrite feed_app, IH. apply bind_ext. intros s3. simpl.
    apply bind_ext. intros s4. now rewrite bind_ret.
Qed.

(** ** The scenarios of the specification, by evaluation *)

Example scenario_funcall_wide :
  pretty_print 80 (funcall "f" [text_t "a"; text_t "b"]) = Done "f(a, b)"%string.
Proof. reflexivity. Qed.

Example scenario_dotted_wide :
  pretty_print 80 (dotted_list [text_t "r"; text_t "x"; text_t "y"])
  = Done "r.x.y"%string.
Proof. reflexivity. Qed.

Example scenario_dotted_narrow :
  pretty_print 3 (dotted_list [text_t "r"; text_t "x"; text_t "y"])
  = Done ("r.x" ++ String newline " .y")%string.
Proof. reflexivity. Qed.

Example scenario_group_fits :
  pretty_print 10 (group_t (concat_t [text_t "abc"; br; text_t "def"]))
  = Done "abc def"%string.
Proof. reflexivity. Qed.

Example scenario_group_breaks :
  pretty_print 5 (group_t (concat_t [text_t "abc"; br; text_t "def"]))
  = Done ("abc" ++ String newline "def")%string.
Proof. reflexivity. Qed.

Example scenario_empty_concat (w : Z) : pretty_print w (concat_t []) = Done ""%string.
Proof. reflexivity. Qed.

(** ** Arithmetic of [uint] *)

Lemma uint_range z : 0 <= uint z < uint_max.
Proof. unfold uint, uint_max. apply Z.mod_pos_bound. reflexivity. Qed.

Lemma uint_small z : 0 <= z < uint_max -> uint z = z.
Proof. unfold uint. apply Z.mod_small. Qed.

Lemma uint_idem z : uint (uint z) = uint z.
Proof. apply uint_small, uint_range. Qed.

Lemma uint_add_r a b : uint (a + uint b) = uint (a + b).
Proof. unfold uint. apply Zplus_mod_idemp_r. Qed.

Lemma uint_add_l a b : uint (uint a + b) = uint (a + b).
Proof. unfold uint. apply Zplus_mod_idemp_l. Qed.

Lemma size_nonneg s : 0 <= size s.
Proof. unfold size. lia. Qed.

Lemma size_append s t : size (s ++ t) = size s + size t.
Proof.
  unfold size. induction s as [|c s IH]; simpl String.length; [lia|].
  rewrite !Nat2Z.inj_succ. lia.
Qed.

(** ** The annotator as a pass *)

Lemma annotated_app p l1 l2 :
  annotated p (l1 ++ l2) = annotated p l1 ++ annotated (position_after p l1) l2.
Proof.
  revert p. induction l1 as [|e l1 IH]; intros p; simpl; [reflexivity|].
  destruct (annotate_element p e) as [e' p'] eqn:E. simpl. now rewrite IH.
Qed.

Lemma position_after_app p l1 l2 :
  position_after p (l1 ++ l2) = position_after (position_after p l1) l2.
Proof. revert p. induction l1 as [|e l1 IH]; intros p; simpl; auto. Qed.

Lemma annotate_visit_element {S} (fn : thunk_t S) e p s :
  annotate_visit fn e (mk_annotate p s)
  = (s' <- fn (fst (annotate_element p e)) s ;;
     Done (mk_annotate (snd (annotate_element p e)) s')).
Proof. destruct e; reflexivity. Qed.

Lemma annotate_feed {S} (fn : thunk_t S) l p s :
  feed (annotate_visit fn) l (mk_annotate p s)
  = (s' <- feed fn (annotated p l) s ;;
     Done (mk_annotate (position_after p l) s')).
Proof.
  revert p s. induction l as [|e l IH]; intros p s; [reflexivity|].
  simpl feed. rewrite annotate_visit_element. simpl annotated. simpl position_after.
  destruct (annotate_element p e) as [e' p']. simpl fst; simpl snd. simpl feed.
  rewrite !bind_assoc. apply bind_ext. intros s'. simpl. apply IH.
Qed.

Lemma annotate_element_range p e :
  uint p = p -> uint (snd (annotate_element p e)) = snd (annotate_element p e).
Proof. intros Hp. destruct e; simpl; auto using uint_idem. Qed.

Lemma position_after_range p l : uint p = p -> uint (position_after p l) = position_after p l.
Proof.
  revert p. induction l as [|e l IH]; intros p Hp; simpl; auto.
  apply IH, annotate_element_range, Hp.
Qed.

Lemma position_after_flat_map p ds :
  uint p = p ->
  Forall (fun d => forall p, uint p = p ->
                   position_after p (emitted d) = uint (p + width d)) ds ->
  forall w, position_after (uint (p + w)) (flat_map emitted ds)
            = uint (p + fold_left (fun w child => uint (w + width child)) ds w).
Proof.
  intros Hp H. induction H as [|d ds Hd _ IH]; intros w; simpl.
  - reflexivity.
  - rewrite position_after_app, Hd by apply uint_idem.
    rewrite uint_add_l, <- Z.add_assoc, <- (uint_add_r p (w + width d)). apply IH.
Qed.

(** The annotator's position after a document is the position before it
    plus the document's [width], as an [unsigned int]. *)
Lemma position_after_emitted doc :
  forall p, uint p = p -> position_after p (emitted doc) = uint (p + width doc).
Proof.
  induction doc as [t|sm c tl|ds IH|d IH|d IH] using document_ind; intros p Hp.
  - simpl. now rewrite uint_add_r.
  - simpl. now rewrite uint_add_r.
  - simpl emitted. simpl width.
    rewrite <- (position_after_flat_map p ds Hp IH 0), Z.add_0_r, Hp. reflexivity.
  - simpl emitted. simpl width. simpl position_after.
    rewrite position_after_app. simpl. apply IH, Hp.
  - simpl emitted. simpl width. simpl position_after.
    rewrite position_after_app. simpl. apply IH, Hp.
Qed.

Lemma width_range doc : uint (width doc) = width doc.
Proof.
  induction doc as [t|sm c tl|ds IH|d IH|d IH] using document_ind; simpl;
    auto using uint_idem.
  clear IH. assert (H : uint 0 = 0) by reflexivity. revert H. generalize 0.
  induction ds as [|d ds IHds]; intros w Hw; simpl; auto using uint_idem.
Qed.

(** ** The corrector as a pass *)

Lemma corrected_concat p ds : corrected p (concat_t ds) = corrected_children p ds.
Proof. reflexivity. Qed.

Lemma corrected_children_cons p d ds :
  corrected_children p (d :: ds)
  = corrected p d ++ corrected_children (position_after p (emitted d)) ds.
Proof. reflexivity. Qed.

Lemma correct_pass_app {S} (fn : thunk_t S) l1 l2 v :
  correct_pass fn (l1 ++ l2) v = (v' <- correct_pass fn l1 v ;; correct_pass fn l2 v').
Proof.
  destruct v as [[|b rest] s]; unfold correct_pass; simpl.
  - rewrite feed_app, !bind_assoc. apply bind_ext. intros s'. reflexivity.
  - now rewrite app_assoc.
Qed.

Lemma correct_pass_one {S} (fn : thunk_t S) e v :
  maybe_push fn e v = correct_pass fn [e] v.
Proof.
  destruct v as [[|b rest] s]; unfold correct_pass, maybe_push; simpl; [|reflexivity].
  rewrite bind_assoc. apply bind_ext. intros s'. reflexivity.
Qed.

Lemma correct_feed {S} (fn : thunk_t S) doc :
  forall p v,
    feed (correct_visit fn) (annotated p (emitted doc)) v
    = correct_pass fn (corrected p doc) v.
Proof.
  induction doc as [t|sm c tl|ds IH|d IH|d IH] using document_ind; intros p v.
  - simpl. rewrite bind_ret. apply correct_pass_one.
  - simpl. rewrite bind_ret. apply correct_pass_one.
  - rewrite corrected_concat. simpl emitted. revert p v.
    induction IH as [|d ds Hd _ IHds]; intros p v.
    + simpl. destruct v as [[|b rest] s]; unfold correct_pass; simpl; [reflexivity|].
      now rewrite app_nil_r.
    + simpl flat_map. rewrite annotated_app, feed_app, corrected_children_cons.
      rewrite correct_pass_app, Hd. apply bind_ext. intros v'. apply IHds.
  - simpl emitted. simpl annotated. rewrite annotated_app. simpl annotated.
    simpl feed. rewrite feed_app, IH. simpl corrected.
    set (q := position_after p (emitted d)).
    destruct v as [[|b rest] s]; unfold correct_pass; simpl;
      rewrite ?feed_app; bind_solve.
  - simpl emitted. simpl annotated. rewrite annotated_app. simpl annotated.
    simpl corrected. set (q := position_after p (emitted d)).
    destruct v as [[|b rest] s]; unfold correct_pass; simpl.
    + unfold maybe_push. simpl. rewrite !bind_assoc. apply bind_ext; intros s1.
      simpl. rewrite feed_app, IH. unfold correct_pass. simpl.
      unfold maybe_push. simpl. bind_solve.
    + rewrite feed_app, IH. unfold correct_pass. simpl.
      rewrite <- !app_assoc. simpl. rewrite <- !app_assoc. reflexivity.
Qed.

(** The whole chain hands the elements of [corrected 0 doc] to the thunk
    behind the corrector. *)
Lemma chain_feed {S} (fn : thunk_t S) doc s :
  generate_stream (annotate_visit (correct_visit fn)) doc
    (annotate_stream (correct_gbeg_stream s))
  = (s' <- feed fn (corrected 0 doc) s ;;
     Done (mk_annotate (width doc) (mk_correct [] s'))).
Proof.
  rewrite generate_stream_feed. unfold annotate_stream, correct_gbeg_stream.
  rewrite annotate_feed, correct_feed. unfold correct_pass. simpl.
  rewrite !bind_assoc. apply bind_ext. intros s'. simpl.
  rewrite position_after_emitted by reflexivity.
  rewrite Z.add_0_l, width_range. reflexivity.
Qed.

Lemma pretty_print_feed w doc :
  pretty_print w doc
  = (v <- feed output_visit (corrected 0 doc) (output_visitor (uint w)) ;;
     Done (result v)).
Proof.
  unfold pretty_print. rewrite chain_feed, bind_assoc. reflexivity.
Qed.

Lemma corrected_stream_eq doc : corrected_stream doc = Done (corrected 0 doc).
Proof.
  unfold corrected_stream. rewrite chain_feed, feed_record. reflexivity.
Qed.

(** ** The output visitor, one element at a time *)

Lemma spaces_size n : 0 <= n -> size (spaces n) = n.
Proof.
  intros Hn. unfold spaces, size. rewrite <- (Z2Nat.id n) at 2 by assumption.
  f_equal. induction (Z.to_nat n) as [|k IH]; simpl; congruence.
Qed.

Lemma count_newlines_append s t :
  count_newlines (s ++ t) = (count_newlines s + count_newlines t)%nat.
Proof. induction s as [|c s IH]; simpl; [reflexivity|]. rewrite IH. lia. Qed.

Lemma count_newlines_spaces n : count_newlines (spaces n) = O.
Proof. unfold spaces. induction (Z.to_nat n) as [|k IH]; simpl; auto. Qed.

(** C5.  At width 3 the call [f(a, b)] is laid out as ["f(a,"], a line
    break, two spaces and ["b)"].  The group that [comma_separated] opens
    ends at flat column 6, beyond the right edge 3, so it does not fit and
    the break after the comma is taken; the nest opened at column 2, just
    after ["f("], and that is the indentation of the break. *)
Theorem funcall_breaks_at_width_3 :
  pretty_print 3 (funcall "f" [text_t "a"; text_t "b"])
  = Done ("f(a," ++ String newline "  b)")%string
  /\ corrected_stream (funcall "f" [text_t "a"; text_t "b"])
     = Done [text_element_t "f" (Some 1); text_element_t "(" (Some 2);
             nbeg_element_t None; gbeg_element_t (Some 6);
             text_element_t "a" (Some 3); text_element_t "," (Some 4);
             cond_element_t " " "" "" (Some 5); text_element_t "b" (Some 6);
             gend_element_t (Some 6); nend_element_t (Some 6);
             text_element_t ")" (Some 7)]
  /\ render_log 3 (funcall "f" [text_t "a"; text_t "b"])
     = Done [Opened 2; Broke (cond_element_t " " "" "" (Some 5)) 2; Closed].
Proof. repeat split; vm_compute; reflexivity. Qed.

(** One break of the output visitor.  A [cond_element_t] that arrives
    while [fittingElements] is zero appends [tail], a newline, as many
    spaces as the back of [indent] holds (none when [indent] is empty) and
    [cont]; afterwards [hpos] is that indentation plus the length of
    [cont] and [rightEdge] is [(width - hpos) + h], both computed in
    [unsigned int]: they are the plain integers only where these lie in
    the range of the type. *)
Lemma cond_break_step (v : output_visitor_t) (small tail cont : string) (h : Z) :
  fittingElements v = 0 ->
  exists v',
    output_visit (cond_element_t small tail cont (Some h)) v = Done v'
    /\ result v' = (result v ++ tail ++ String newline "" ++ spaces (currentIndent v) ++ cont)%string
    /\ (0 <= currentIndent v -> size (spaces (currentIndent v)) = currentIndent v)
    /\ out_hpos v' = uint (currentIndent v + size cont)
    /\ rightEdge v' = uint (uint (out_width v - out_hpos v') + h)
    /\ (0 <= currentIndent v -> currentIndent v + size cont < uint_max ->
        out_hpos v' = currentIndent v + size cont)
    /\ (0 <= (out_width v - out_hpos v') + h < uint_max ->
        rightEdge v' = (out_width v - out_hpos v') + h)
    /\ fittingElements v' = 0 /\ indent v' = indent v /\ out_width v' = out_width v.
Proof.
  intros Hfit. eexists. split.
  - simpl. rewrite Hfit. simpl. reflexivity.
  - simpl. fold (currentIndent v). repeat split.
    + apply spaces_size.
    + intros H0 H1. apply uint_small. pose proof (size_nonneg cont). lia.
    + intros H. rewrite uint_add_l. apply uint_small, H.
Qed.

(** C3, where the code departs from it.  The break appends [tail], a
    newline, the indentation and [cont], and sets [hpos] as the claim
    says; but [rightEdge] is computed in [unsigned int], and when the new
    column is beyond [width + h] the subtraction wraps.  At page width 0 a
    conditional with an empty [small] and the [cont] ["ab"], at position
    0, leaves [hpos] at 2 and [rightEdge] at [2^32 - 2], where
    [(width - hpos) + h] is [-2].  The group that follows, which ends at
    position 3, is then within the right edge and is laid out flat: its
    [br] is a space, not a newline. *)
Theorem cond_break_right_edge_wraps :
  exists v',
    output_visit (cond_element_t "" "" "ab" (Some 0)) (output_visitor 0) = Done v'
    /\ result v' = String newline "ab"
    /\ out_hpos v' = 2
    /\ rightEdge v' = 4294967294
    /\ (out_width v' - out_hpos v') + 0 = -2
    /\ corrected_stream
         (concat_t [cond_t "" "ab" "";
                    group_t (concat_t [text_t "x"; br; text_t "y"])])
       = Done [cond_element_t "" "" "ab" (Some 0); gbeg_element_t (Some 3);
               text_element_t "x" (Some 1); cond_element_t " " "" "" (Some 2);
               text_element_t "y" (Some 3); gend_element_t (Some 3)]
    /\ pretty_print 0
         (concat_t [cond_t "" "ab" "";
                    group_t (concat_t [text_t "x"; br; text_t "y"])])
       = Done (String newline "abx y").
Proof.
  eexists. split; [reflexivity|]. repeat split; vm_compute; reflexivity.
Qed.

Lemma sapp_assoc (s t u : string) : ((s ++ t) ++ u = s ++ (t ++ u))%string.
Proof. induction s as [|c s IH]; simpl; congruence. Qed.

Lemma sapp_nil_r (s : string) : (s ++ "" = s)%string.
Proof. induction s as [|c s IH]; simpl; congruence. Qed.

Lemma flat_string_app l1 l2 :
  flat_string (l1 ++ l2) = (flat_string l1 ++ flat_string l2)%string.
Proof.
  induction l1 as [|e l1 IH]; simpl; [reflexivity|]. now rewrite IH, sapp_assoc.
Qed.

Lemma flat_len_app l1 l2 : flat_len (l1 ++ l2) = flat_len l1 + flat_len l2.
Proof. unfold flat_len. now rewrite flat_string_app, size_append. Qed.

Lemma flat_len_cons e l : flat_len (e :: l) = size (flat_text e) + flat_len l.
Proof. unfold flat_len. simpl. apply size_append. Qed.

Lemma flat_len_nonneg l : 0 <= flat_len l.
Proof. apply size_nonneg. Qed.

(** A thunk that finishes a list finished every prefix of it, and the
    element after the prefix. *)
Lemma feed_split {S} (fn : thunk_t S) pre e post s s' :
  feed fn (pre ++ e :: post) s = Done s' ->
  exists v v', feed fn pre s = Done v /\ fn e v = Done v'
               /\ feed fn post v' = Done s'.
Proof.
  rewrite feed_app. destruct (feed fn pre s) as [v|f]; simpl; [|discriminate].
  destruct (fn e v) as [v'|f] eqn:E; simpl; [|discriminate].
  intros H. exists v, v'. auto.
Qed.

(** ** C7: the tail of a conditional *)

Lemma cond_flat_step v small tail cont h :
  fittingElements v <> 0 ->
  output_visit (cond_element_t small tail cont h) v
  = Done (mk_output (out_width v) (fittingElements v) (rightEdge v)
            (uint (out_hpos v + size small)) (indent v)
            (result v ++ small)%string).
Proof.
  intros H. simpl. destruct (Z.eqb_spec (fittingElements v) 0); [contradiction|].
  reflexivity.
Qed.

Lemma output_visit_tail_variant e e' v :
  tail_variant e e' -> existsb is_broke (observe e v) = false ->
  output_visit e' v = output_visit e v
  /\ forall v', output_visit e v = Done v' ->
                result v' = (result v ++ flat_text e)%string.
Proof.
  destruct e as [t h|sm tl c h|h|h|h|h], e' as [t' h'|sm' tl' c' h'|h'|h'|h'|h'];
    simpl; try discriminate; intros Hv Hobs;
    try (injection Hv as <-); try (injection Hv as <- <-);
    try (split; [reflexivity|]).
  - intros v' [= <-]. reflexivity.
  - destruct Hv as (<- & <- & <-).
    destruct (fittingElements v =? 0); [discriminate|]. split; [reflexivity|].
    intros v' [= <-]. reflexivity.
  - intros v' [= <-]. simpl. now rewrite sapp_nil_r.
  - destruct (indent v); intros v' [= <-]. simpl. now rewrite sapp_nil_r.
  - destruct (negb (fittingElements v =? 0)).
    + intros v' [= <-]. simpl. now rewrite sapp_nil_r.
    + destruct h as [q|]; [|discriminate]. destruct (uint q <=? rightEdge v);
        intros v' [= <-]; simpl; now rewrite sapp_nil_r.
  - destruct (negb (fittingElements v =? 0)); intros v' [= <-]; simpl;
      now rewrite sapp_nil_r.
Qed.

Lemma existsb_app_false {A} (f : A -> bool) l1 l2 :
  existsb f (l1 ++ l2) = false -> existsb f l1 = false /\ existsb f l2 = false.
Proof. rewrite existsb_app. apply orb_false_elim. Qed.

(** C7.  In a rendering in which no [cond_element_t] takes its break
    branch (each one reaches the output visitor with [fittingElements]
    not zero), the output visitor ends in the same state whatever the
    [tail] strings are, and what it appended is the text payloads and the
    [small] strings in stream order: no [tail] contributes. *)
Theorem tail_absent_from_flat_output
  (l l' : list stream_element_t) (v v' : output_visitor_t) :
  Forall2 tail_variant l l' ->
  existsb is_broke (observations l v) = false ->
  feed output_visit l v = Done v' ->
  feed output_visit l' v = Done v'
  /\ result v' = (result v ++ flat_string l)%string.
Proof.
  intros Hll. revert v. induction Hll as [|e e' l l' He _ IH]; intros v Hobs Hrun.
  - simpl in *. injection Hrun as <-. now rewrite sapp_nil_r.
  - simpl in Hobs, Hrun. apply existsb_app_false in Hobs as [Hobs1 Hobs2].
    destruct (output_visit_tail_variant e e' v He Hobs1) as [Heq Hres].
    simpl. rewrite Heq. destruct (output_visit e v) as [v1|f]; [|discriminate].
    simpl in *. destruct (IH v1 Hobs2 Hrun) as [IH1 IH2]. split; [exact IH1|].
    rewrite IH2, (Hres v1 eq_refl). apply sapp_assoc.
Qed.

Lemma tail_absent_from_flat_output_witness :
  feed output_visit
    [gbeg_element_t (Some 7); text_element_t "abc" (Some 3);
     cond_element_t " " "" "" (Some 4); text_element_t "def" (Some 7);
     gend_element_t (Some 7)] (output_visitor 10)
  = Done (mk_output 10 0 10 7 [] "abc def")
  /\ result (mk_output 10 0 10 7 [] "abc def")
     = (result (output_visitor 10)
        ++ flat_string
             [gbeg_element_t (Some 7); text_element_t "abc" (Some 3);
              cond_element_t " " ";" "" (Some 4); text_element_t "def" (Some 7);
              gend_element_t (Some 7)])%string.
Proof.
  apply (tail_absent_from_flat_output
           [gbeg_element_t (Some 7); text_element_t "abc" (Some 3);
            cond_element_t " " ";" "" (Some 4); text_element_t "def" (Some 7);
            gend_element_t (Some 7)]).
  - repeat constructor; simpl; auto.
  - reflexivity.
  - reflexivity.
Defined.

(** ** C8: the counter of fitting groups *)

Lemma output_visit_fitting_range e v v' :
  0 <= fittingElements v < uint_max ->
  output_visit e v = Done v' ->
  0 <= fittingElements v' < uint_max.
Proof.
  intros Hr. destruct e as [t h|sm tl c h|h|h|h|h]; simpl.
  - intros [= <-]. exact Hr.
  - destruct (fittingElements v =? 0).
    + destruct h; [|discriminate]. intros [= <-]. simpl. unfold uint_max. lia.
    + intros [= <-]. exact Hr.
  - intros [= <-]. exact Hr.
  - destruct (indent v); [discriminate|]. intros [= <-]. exact Hr.
  - destruct (negb (fittingElements v =? 0)).
    + intros [= <-]. apply uint_range.
    + destruct h as [q|]; [|discriminate].
      destruct (uint q <=? rightEdge v); intros [= <-]; simpl;
        [apply uint_range | unfold uint_max; lia].
  - destruct (negb (fittingElements v =? 0)); intros [= <-]; simpl;
      [apply uint_range | exact Hr].
Qed.

Lemma feed_fitting_range l v v' :
  0 <= fittingElements v < uint_max ->
  feed output_visit l v = Done v' ->
  0 <= fittingElements v' < uint_max.
Proof.
  revert v. induction l as [|e l IH]; intros v Hr; simpl.
  - intros [= <-]. exact Hr.
  - destruct (output_visit e v) as [v1|f] eqn:E; [|discriminate]. simpl.
    apply IH. eapply output_visit_fitting_range; eauto.
Qed.

(** C8.  In every state [v] the output visitor reaches from its initial
    state, [fittingElements] is a count within the range of its type; a
    [gend_element_t] that arrives then leaves the state as it is when the
    count is zero, and otherwise lowers the count by exactly one (the
    subtraction does not wrap) and changes nothing else. *)
Theorem gend_never_underflows
  (w : Z) (l : list stream_element_t) (v : output_visitor_t) (h : option Z) :
  feed output_visit l (output_visitor w) = Done v ->
  0 <= fittingElements v < uint_max
  /\ exists v',
      output_visit (gend_element_t h) v = Done v'
      /\ (fittingElements v = 0 -> v' = v)
      /\ (fittingElements v <> 0 ->
          fittingElements v' = fittingElements v - 1 /\ 0 <= fittingElements v')
      /\ out_width v' = out_width v /\ rightEdge v' = rightEdge v
      /\ out_hpos v' = out_hpos v /\ indent v' = indent v
      /\ result v' = result v.
Proof.
  intros Hrun.
  assert (Hr : 0 <= fittingElements v < uint_max).
  { eapply feed_fitting_range; [|exact Hrun]. simpl. unfold uint_max. lia. }
  split; [exact Hr|]. simpl.
  destruct (Z.eqb_spec (fittingElements v) 0) as [E|E]; simpl.
  - exists v. repeat split; auto; try contradiction; lia.
  - eexists. split; [reflexivity|]. simpl. repeat split; try contradiction.
    + rewrite uint_small; lia.
    + rewrite uint_small; lia.
Qed.

Lemma gend_never_underflows_witness :
  0 <= fittingElements (mk_output 5 1 5 0 [] "") < uint_max
  /\ exists v',
      output_visit (gend_element_t (Some 3)) (mk_output 5 1 5 0 [] "") = Done v'
      /\ (fittingElements (mk_output 5 1 5 0 [] "") = 0 -> v' = mk_output 5 1 5 0 [] "")
      /\ (fittingElements (mk_output 5 1 5 0 [] "") <> 0 ->
          fittingElements v' = fittingElements (mk_output 5 1 5 0 [] "") - 1
          /\ 0 <= fittingElements v')
      /\ out_width v' = out_width (mk_output 5 1 5 0 [] "")
      /\ rightEdge v' = rightEdge (mk_output 5 1 5 0 [] "")
      /\ out_hpos v' = out_hpos (mk_output 5 1 5 0 [] "")
      /\ indent v' = indent (mk_output 5 1 5 0 [] "")
      /\ result v' = result (mk_output 5 1 5 0 [] "").
Proof.
  apply (gend_never_underflows 5 [gbeg_element_t (Some 3)]). reflexivity.
Defined.

(** ** C10: the annotator's position *)

Lemma annotate_element_text p e : flat_text (fst (annotate_element p e)) = flat_text e.
Proof. destruct e; reflexivity. Qed.

Lemma annotate_element_position p e :
  uint p = p -> snd (annotate_element p e) = uint (p + size (flat_text e)).
Proof. intros Hp. destruct e; simpl; rewrite ?Z.add_0_r; auto. Qed.

Lemma annotate_element_hpos p e :
  is_begin e = false ->
  hpos_of (fst (annotate_element p e)) = Some (snd (annotate_element p e)).
Proof. destruct e; simpl; intros H; try discriminate; reflexivity. Qed.

Lemma annotate_element_begin p e :
  is_begin (fst (annotate_element p e)) = is_begin e.
Proof. destruct e; reflexivity. Qed.

Lemma flat_string_annotated p l : flat_string (annotated p l) = flat_string l.
Proof.
  revert p. induction l as [|e l IH]; intros p; [reflexivity|]. simpl.
  pose proof (annotate_element_text p e) as Ht.
  destruct (annotate_element p e) as [e' p']. simpl in *. now rewrite Ht, IH.
Qed.

Lemma position_after_flat_len l :
  forall p, uint p = p -> position_after p l = uint (p + flat_len l).
Proof.
  induction l as [|e l IH]; intros p Hp.
  - simpl. unfold flat_len. simpl. now rewrite Z.add_0_r.
  - simpl. rewrite IH by now apply annotate_element_range.
    rewrite annotate_element_position, uint_add_l, flat_len_cons by assumption.
    f_equal. lia.
Qed.

Lemma width_flat_len doc : width doc = flat_width (emitted doc).
Proof.
  unfold flat_width.
  rewrite <- (Z.add_0_l (flat_len (emitted doc))).
  rewrite <- position_after_flat_len, position_after_emitted by reflexivity.
  now rewrite Z.add_0_l, width_range.
Qed.

Lemma annotated_hpos l :
  forall p pre e post,
    uint p = p -> annotated p l = pre ++ e :: post -> is_begin e = false ->
    hpos_of e = Some (uint (p + flat_len (pre ++ [e]))).
Proof.
  induction l as [|e0 l IH]; intros p pre e post Hp Heq Hb.
  - destruct pre; discriminate.
  - simpl in Heq.
    pose proof (annotate_element_text p e0) as Ht.
    pose proof (annotate_element_position p e0 Hp) as Hpos.
    pose proof (annotate_element_hpos p e0) as Hh.
    pose proof (annotate_element_begin p e0) as Hbeg.
    pose proof (annotate_element_range p e0 Hp) as Hr.
    destruct (annotate_element p e0) as [e0' p']. simpl in *.
    destruct pre as [|x pre]; simpl in Heq; injection Heq as <- Heq.
    + rewrite Hh by congruence. simpl app. rewrite Hpos, flat_len_cons, Ht.
      unfold flat_len. simpl. now rewrite Z.add_0_r.
    + rewrite (IH p' pre e post Hr Heq Hb), Hpos, uint_add_l.
      change ((e0' :: pre) ++ [e]) with (e0' :: (pre ++ [e])).
      rewrite (flat_len_cons e0'), Ht. f_equal. f_equal. lia.
Qed.

Lemma annotated_stream_eq doc :
  annotated_stream doc = Done (mk_annotate (width doc) (annotated 0 (emitted doc))).
Proof.
  unfold annotated_stream, annotate_stream.
  rewrite generate_stream_feed, annotate_feed, feed_record. simpl.
  rewrite position_after_emitted by reflexivity.
  now rewrite Z.add_0_l, width_range.
Qed.

(** C10.  When the generator has run over a document, the annotator's
    [position] is the document's [width]; that is the flat width of the
    whole stream, and the [hpos] the annotator gave to every element other
    than a group or nest begin is the flat width of the stream up to and
    including that element. *)
Theorem annotator_position_is_width (doc : document) :
  exists l,
    annotated_stream doc = Done (mk_annotate (width doc) l)
    /\ flat_width l = width doc
    /\ forall pre e post,
        l = pre ++ e :: post -> is_begin e = false ->
        hpos_of e = Some (flat_width (pre ++ [e])).
Proof.
  exists (annotated 0 (emitted doc)). split; [apply annotated_stream_eq|]. split.
  - unfold flat_width, flat_len. rewrite flat_string_annotated. symmetry.
    apply width_flat_len.
  - intros pre e post Heq Hb. unfold flat_width.
    rewrite <- (Z.add_0_l (flat_len (pre ++ [e]))).
    eapply annotated_hpos; eauto.
Qed.

(** ** C9: balance *)

Lemma well_nested_emitted doc :
  forall open rest, well_nested open (emitted doc ++ rest) = well_nested open rest.
Proof.
  induction doc as [t|sm c tl|ds IH|d IH|d IH] using document_ind; intros open rest.
  - reflexivity.
  - reflexivity.
  - simpl. induction IH as [|d ds Hd _ IHds]; [reflexivity|].
    simpl. rewrite <- app_assoc, Hd. apply IHds.
  - simpl. rewrite <- app_assoc, IH. reflexivity.
  - simpl. rewrite <- app_assoc, IH. reflexivity.
Qed.

(** The output visitor gets through the corrected stream of a document
    from any state, and leaves [indent] as it found it. *)
Lemma output_corrected_done doc :
  forall p v, exists v',
    feed output_visit (corrected p doc) v = Done v' /\ indent v' = indent v.
Proof.
  induction doc as [t|sm c tl|ds IH|d IH|d IH] using document_ind; intros p v.
  - eexists. split; reflexivity.
  - simpl. destruct (fittingElements v =? 0); eexists; split; reflexivity.
  - rewrite corrected_concat. revert p v.
    induction IH as [|d ds Hd _ IHds]; intros p v.
    + exists v. split; reflexivity.
    + rewrite corrected_children_cons, feed_app.
      destruct (Hd p v) as (v1 & -> & Hi1). simpl.
      destruct (IHds (position_after p (emitted d)) v1) as (v2 & -> & Hi2).
      exists v2. split; [reflexivity | congruence].
  - simpl corrected. set (q := position_after p (emitted d)).
    assert (Hg : exists v1, output_visit (gbeg_element_t (Some q)) v = Done v1
                            /\ indent v1 = indent v).
    { simpl. destruct (negb (fittingElements v =? 0)); [eexists; split; reflexivity|].
      destruct (uint q <=? rightEdge v); eexists; split; reflexivity. }
    destruct Hg as (v1 & Hg & Hi1). rewrite feed_cons, Hg, bind_Done.
    rewrite feed_app. destruct (IH p v1) as (v2 & -> & Hi2). simpl.
    destruct (negb (fittingElements v2 =? 0)); eexists; (split; [reflexivity|]);
      simpl; congruence.
  - simpl corrected. set (q := position_after p (emitted d)).
    set (v0 := mk_output (out_width v) (fittingElements v) (rightEdge v)
                 (out_hpos v) (out_hpos v :: indent v) (result v)).
    rewrite feed_cons. change (output_visit (nbeg_element_t None) v) with (Done v0).
    rewrite bind_Done.
    assert (Hg : exists v1, output_visit (gbeg_element_t (Some q)) v0 = Done v1
                            /\ indent v1 = indent v0).
    { simpl. destruct (negb (fittingElements v =? 0)); [eexists; split; reflexivity|].
      destruct (uint q <=? rightEdge v); eexists; split; reflexivity. }
    destruct Hg as (v1 & Hg & Hi1). rewrite feed_cons, Hg, bind_Done.
    rewrite feed_app. destruct (IH p v1) as (v2 & -> & Hi2). simpl.
    assert (Hi : indent v2 = out_hpos v :: indent v)
      by (rewrite Hi2, Hi1; reflexivity).
    destruct (negb (fittingElements v2 =? 0)); simpl; rewrite Hi; simpl;
      eexists; (split; [reflexivity|]); reflexivity.
Qed.

Lemma pretty_print_done w doc : exists s, pretty_print w doc = Done s.
Proof.
  rewrite pretty_print_feed.
  destruct (output_corrected_done doc 0 (output_visitor (uint w))) as (v & -> & _).
  eexists. reflexivity.
Qed.

Lemma correct_visit_gend_done {S} (fn : thunk_t S) h v v' :
  correct_visit fn (gend_element_t h) v = Done v' -> lookahead v <> [].
Proof.
  simpl. destruct (guarantee (is_set h)); simpl; [|discriminate].
  destruct (lookahead v); [discriminate | discriminate].
Qed.

Lemma output_visit_nend_done h v v' :
  output_visit (nend_element_t h) v = Done v' -> indent v <> [].
Proof. simpl. destruct (indent v); discriminate. Qed.

(** C9.  The stream the generator makes from a document is balanced:
    groups and nests open and close in nested pairs.  Hence the chain runs
    to its end at every width; whenever a [gend_element_t] reaches the
    corrector its [lookahead] is not empty, and whenever a
    [nend_element_t] reaches the output visitor its [indent] is not
    empty. *)
Theorem generated_stream_balanced (doc : document) (w : Z) :
  well_nested [] (emitted doc) = true
  /\ generate_stream record doc [] = Done (emitted doc)
  /\ (exists s, pretty_print w doc = Done s)
  /\ (exists la,
        annotated_stream doc = Done (mk_annotate (width doc) la)
        /\ forall pre h post,
            la = pre ++ gend_element_t h :: post ->
            exists v,
              feed (correct_visit record) pre (correct_gbeg_stream []) = Done v
              /\ lookahead v <> [])
  /\ (exists lc,
        corrected_stream doc = Done lc
        /\ forall pre h post,
            lc = pre ++ nend_element_t h :: post ->
            exists v,
              feed output_visit pre (output_visitor (uint w)) = Done v
              /\ indent v <> []).
Proof.
  split; [|split; [|split; [|split]]].
  - rewrite <- (app_nil_r (emitted doc)). now rewrite well_nested_emitted.
  - now rewrite generate_stream_feed, feed_record.
  - apply pretty_print_done.
  - exists (annotated 0 (emitted doc)). split; [apply annotated_stream_eq|].
    intros pre h post Heq.
    pose proof (correct_feed record doc 0 (correct_gbeg_stream [])) as Hrun.
    unfold correct_pass in Hrun. simpl in Hrun. rewrite feed_record in Hrun.
    simpl in Hrun. rewrite Heq in Hrun.
    apply feed_split in Hrun as (v & v' & Hpre & Hstep & _).
    exists v. split; [exact Hpre|]. eapply correct_visit_gend_done, Hstep.
  - exists (corrected 0 doc). split; [apply corrected_stream_eq|].
    intros pre h post Heq.
    destruct (output_corrected_done doc 0 (output_visitor (uint w))) as (v1 & Hrun & _).
    rewrite Heq in Hrun.
    apply feed_split in Hrun as (v & v' & Hpre & Hstep & _).
    exists v. split; [exact Hpre|]. eapply output_visit_nend_done, Hstep.
Qed.

(** ** C2: the stream after the corrector *)

Lemma hpos_defined_corrected doc : forall p, Forall hpos_defined (corrected p doc).
Proof.
  induction doc as [t|sm c tl|ds IH|d IH|d IH] using document_ind; intros p.
  - repeat constructor. simpl. eauto.
  - repeat constructor. simpl. eauto.
  - rewrite corrected_concat. revert p.
    induction IH as [|d ds Hd _ IHds]; intros p; [constructor|].
    rewrite corrected_children_cons. apply Forall_app. split; auto.
  - simpl. constructor; [simpl; eauto|]. apply Forall_app. split; auto.
    repeat constructor. simpl. eauto.
  - simpl. constructor; [exact I|]. constructor; [simpl; eauto|].
    apply Forall_app. split; auto. repeat constructor; simpl; eauto.
Qed.

Lemma forget_corrected doc : forall p, map forget (corrected p doc) = emitted doc.
Proof.
  induction doc as [t|sm c tl|ds IH|d IH|d IH] using document_ind; intros p.
  - reflexivity.
  - reflexivity.
  - rewrite corrected_concat. simpl emitted. revert p.
    induction IH as [|d ds Hd _ IHds]; intros p; [reflexivity|].
    rewrite corrected_children_cons, map_app, Hd, IHds. reflexivity.
  - simpl. rewrite map_app, IH. reflexivity.
  - simpl. rewrite map_app, IH. reflexivity.
Qed.

Lemma passed_on_corrected doc :
  forall p, Forall2 passed_on (annotated p (emitted doc)) (corrected p doc).
Proof.
  induction doc as [t|sm c tl|ds IH|d IH|d IH] using document_ind; intros p.
  - repeat constructor.
  - repeat constructor.
  - rewrite corrected_concat. simpl emitted. revert p.
    induction IH as [|d ds Hd _ IHds]; intros p; [constructor|].
    rewrite corrected_children_cons. simpl flat_map. rewrite annotated_app.
    apply Forall2_app; auto.
  - simpl. constructor; [simpl; eauto|]. rewrite annotated_app.
    apply Forall2_app; auto. repeat constructor.
  - simpl. constructor; [reflexivity|]. constructor; [simpl; eauto|].
    rewrite annotated_app. apply Forall2_app; auto. repeat constructor.
Qed.

Lemma flat_string_forget l : flat_string (map forget l) = flat_string l.
Proof.
  induction l as [|e l IH]; [reflexivity|]. simpl. rewrite IH.
  destruct e; reflexivity.
Qed.

Lemma flat_len_corrected p doc : flat_len (corrected p doc) = flat_len (emitted doc).
Proof. unfold flat_len. now rewrite <- (forget_corrected doc p), flat_string_forget. Qed.

Lemma firstn_S_app_cons {A} (l : list A) x rest :
  firstn (S (List.length l)) (l ++ x :: rest) = l ++ [x].
Proof.
  induction l as [|a l IH]; [reflexivity|].
  simpl in *. f_equal. exact IH.
Qed.

Lemma group_end_corrected doc :
  forall p depth rest,
    group_end depth (corrected p doc ++ rest)
    = option_map (Nat.add (List.length (corrected p doc))) (group_end depth rest).
Proof.
  induction doc as [t|sm c tl|ds IH|d IH|d IH] using document_ind;
    intros p depth rest.
  - simpl. destruct (group_end depth rest); reflexivity.
  - simpl. destruct (group_end depth rest); reflexivity.
  - rewrite corrected_concat. revert p.
    induction IH as [|d ds Hd _ IHds]; intros p.
    + simpl. destruct (group_end depth rest); reflexivity.
    + rewrite corrected_children_cons, <- app_assoc, Hd, IHds, length_app.
      destruct (group_end depth rest); simpl; [f_equal; lia | reflexivity].
  - simpl. rewrite <- app_assoc, IH, length_app. simpl.
    destruct (group_end depth rest); simpl; [f_equal; lia | reflexivity].
  - simpl. rewrite <- app_assoc, IH, length_app. simpl.
    destruct (group_end depth rest); simpl; [f_equal; lia | reflexivity].
Qed.

Lemma groups_matched_corrected doc :
  forall P rest,
    groups_matched (P + flat_len (emitted doc)) rest ->
    groups_matched P (corrected (uint P) doc ++ rest).
Proof.
  induction doc as [t|sm c tl|ds IH|d IH|d IH] using document_ind; intros P rest H.
  - simpl. split; [exact I|]. unfold flat_len in H. simpl in H.
    now rewrite sapp_nil_r in H.
  - simpl. split; [exact I|]. unfold flat_len in H. simpl in H.
    now rewrite sapp_nil_r in H.
  - rewrite corrected_concat. simpl emitted in H. revert P H.
    induction IH as [|d ds Hd _ IHds]; intros P H.
    + simpl. unfold flat_len in H. simpl in H. now rewrite Z.add_0_r in H.
    + rewrite corrected_children_cons, <- app_assoc. apply Hd.
      rewrite position_after_flat_len by apply uint_idem. rewrite uint_add_l.
      apply IHds. simpl flat_map in H. rewrite flat_len_app in H.
      now rewrite <- Z.add_assoc.
  - simpl corrected. rewrite position_after_flat_len by apply uint_idem.
    rewrite uint_add_l. cbn [app groups_matched flat_text].
    change (size "") with 0. rewrite Z.add_0_r, <- app_assoc. cbn [app]. split.
    + exists (List.length (corrected (uint P) d)), (uint (P + flat_len (emitted d))).
      split; [|split; [|split]].
      * rewrite group_end_corrected. simpl. now rewrite Nat.add_0_r.
      * rewrite nth_error_app2, Nat.sub_diag by lia. reflexivity.
      * reflexivity.
      * rewrite firstn_S_app_cons, flat_len_app, flat_len_corrected.
        unfold flat_len at 2. simpl. now rewrite Z.add_0_r.
    + apply IH. cbn [app groups_matched flat_text]. split; [exact I|].
      change (size "") with 0. rewrite Z.add_0_r.
      simpl emitted in H. rewrite flat_len_cons, flat_len_app in H.
      unfold flat_len at 2 in H. simpl in H. now rewrite !Z.add_0_r in H.
  - simpl corrected. rewrite position_after_flat_len by apply uint_idem.
    rewrite uint_add_l. cbn [app groups_matched flat_text]. split; [exact I|].
    change (size "") with 0. rewrite !Z.add_0_r, <- app_assoc. cbn [app]. split.
    + exists (List.length (corrected (uint P) d)), (uint (P + flat_len (emitted d))).
      split; [|split; [|split]].
      * rewrite group_end_corrected. simpl. now rewrite Nat.add_0_r.
      * rewrite nth_error_app2, Nat.sub_diag by lia. reflexivity.
      * reflexivity.
      * rewrite firstn_S_app_cons, flat_len_app, flat_len_corrected.
        unfold flat_len at 2. simpl. now rewrite Z.add_0_r.
    + apply IH. cbn [app groups_matched flat_text]. split; [exact I|].
      change (size "") with 0. rewrite Z.add_0_r.
      split; [exact I|]. rewrite Z.add_0_r.
      simpl emitted in H. rewrite !flat_len_cons, flat_len_app in H.
      unfold flat_len at 2 in H. simpl in H. now rewrite !Z.add_0_r in H.
Qed.

Lemma groups_matched_at l :
  forall P pre h post,
    groups_matched P l -> l = pre ++ gbeg_element_t h :: post ->
    exists i q,
      group_end 0 post = Some i
      /\ nth_error post i = Some (gend_element_t (Some q))
      /\ h = Some q
      /\ q = uint (P + flat_len (pre ++ gbeg_element_t h :: firstn (S i) post)).
Proof.
  induction l as [|e l IH]; intros P pre h post Hm Heq.
  - destruct pre; discriminate.
  - destruct pre as [|x pre]; simpl in Heq; injection Heq as -> ->.
    + destruct Hm as [(i & q & H1 & H2 & H3 & H4) _]. exists i, q.
      split; [exact H1|]. split; [exact H2|]. split; [exact H3|]. exact H4.
    + destruct Hm as [_ Hm].
      destruct (IH _ pre h post Hm eq_refl) as (i & q & H1 & H2 & H3 & H4).
      exists i, q. repeat split; auto. rewrite H4. f_equal.
      change ((x :: pre) ++ gbeg_element_t h :: firstn (S i) post)
        with (x :: (pre ++ gbeg_element_t h :: firstn (S i) post)).
      rewrite (flat_len_cons x). lia.
Qed.

(** C2.  The stream that leaves the corrector: every element other than
    an [nbeg_element_t] has its [hpos]; every [gbeg_element_t] has the
    [hpos] of the [gend_element_t] that closes its group, which is the
    flat width of the stream up to that end; and the elements are those
    the generator emitted, in the order of emission, each one as the
    annotator sent it except the group begins, which are new elements. *)
Theorem corrected_stream_invariants (doc : document) :
  exists lc,
    corrected_stream doc = Done lc
    /\ Forall hpos_defined lc
    /\ (forall pre h post,
          lc = pre ++ gbeg_element_t h :: post ->
          exists i q,
            group_end 0 post = Some i
            /\ nth_error post i = Some (gend_element_t (Some q))
            /\ h = Some q
            /\ q = flat_width (pre ++ gbeg_element_t h :: firstn (S i) post))
    /\ map forget lc = emitted doc
    /\ exists la,
        annotated_stream doc = Done (mk_annotate (width doc) la)
        /\ Forall2 passed_on la lc.
Proof.
  exists (corrected 0 doc). split; [apply corrected_stream_eq|].
  split; [apply hpos_defined_corrected|]. split; [|split].
  - intros pre h post Heq.
    assert (Hm : groups_matched 0 (corrected 0 doc)).
    { rewrite <- (app_nil_r (corrected 0 doc)).
      apply (groups_matched_corrected doc 0 []). exact I. }
    destruct (groups_matched_at _ 0 pre h post Hm Heq) as (i & q & H1 & H2 & H3 & H4).
    exists i, q. rewrite Z.add_0_l in H4. auto.
  - apply forget_corrected.
  - exists (annotated 0 (emitted doc)). split; [apply annotated_stream_eq|].
    apply passed_on_corrected.
Qed.

(** ** C1: documents that fit on the line *)

Lemma nesting_nonneg doc : 0 <= nesting doc.
Proof.
  induction doc as [t|sm c tl|ds IH|d IH|d IH] using document_ind; simpl; try lia.
  induction IH as [|d ds Hd _ IHds]; simpl; lia.
Qed.

Lemma output_visit_text t h v :
  output_visit (text_element_t t h) v
  = Done (mk_output (out_width v) (fittingElements v) (rightEdge v)
            (uint (out_hpos v + size t)) (indent v) (result v ++ t)%string).
Proof. reflexivity. Qed.

Lemma output_visit_gbeg_inside h v :
  fittingElements v <> 0 ->
  output_visit (gbeg_element_t h) v
  = Done (mk_output (out_width v) (uint (fittingElements v + 1)) (rightEdge v)
            (out_hpos v) (indent v) (result v)).
Proof.
  intros H. simpl. destruct (Z.eqb_spec (fittingElements v) 0); [contradiction|].
  reflexivity.
Qed.

Lemma output_visit_gbeg_outside q v :
  fittingElements v = 0 ->
  output_visit (gbeg_element_t (Some q)) v
  = Done (mk_output (out_width v)
            (if uint q <=? rightEdge v then uint (fittingElements v + 1) else 0)
            (rightEdge v) (out_hpos v) (indent v) (result v)).
Proof.
  intros H. simpl. rewrite H. simpl. destruct (uint q <=? rightEdge v); reflexivity.
Qed.

Lemma output_visit_gend_inside h v :
  fittingElements v <> 0 ->
  output_visit (gend_element_t h) v
  = Done (mk_output (out_width v) (uint (fittingElements v - 1)) (rightEdge v)
            (out_hpos v) (indent v) (result v)).
Proof.
  intros H. simpl. destruct (Z.eqb_spec (fittingElements v) 0); [contradiction|].
  reflexivity.
Qed.

Lemma output_visit_gend_outside h v :
  fittingElements v = 0 -> output_visit (gend_element_t h) v = Done v.
Proof. intros H. simpl. rewrite H. reflexivity. Qed.

Lemma output_visit_nbeg h v :
  output_visit (nbeg_element_t h) v
  = Done (mk_output (out_width v) (fittingElements v) (rightEdge v)
            (out_hpos v) (out_hpos v :: indent v) (result v)).
Proof. reflexivity. Qed.

Lemma output_visit_nend h v i rest :
  indent v = i :: rest ->
  output_visit (nend_element_t h) v
  = Done (mk_output (out_width v) (fittingElements v) (rightEdge v)
            (out_hpos v) rest (result v)).
Proof. intros H. simpl. rewrite H. reflexivity. Qed.

Lemma flat_string_group d : flat_string (emitted (group_t d)) = flat_string (emitted d).
Proof. simpl. rewrite flat_string_app. simpl. apply sapp_nil_r. Qed.

Lemma flat_string_nest d : flat_string (emitted (nest_t d)) = flat_string (emitted d).
Proof. simpl. rewrite flat_string_app. simpl. apply sapp_nil_r. Qed.

Lemma flat_len_group d : flat_len (emitted (group_t d)) = flat_len (emitted d).
Proof. unfold flat_len. now rewrite flat_string_group. Qed.

Lemma flat_len_nest d : flat_len (emitted (nest_t d)) = flat_len (emitted d).
Proof. unfold flat_len. now rewrite flat_string_nest. Qed.

(** Inside a group that fits, a document is laid out flat. *)
Lemma flat_run doc :
  forall p v,
    0 < fittingElements v -> fittingElements v + nesting doc < uint_max ->
    exists v',
      feed output_visit (corrected p doc) v = Done v'
      /\ fittingElements v' = fittingElements v
      /\ rightEdge v' = rightEdge v
      /\ indent v' = indent v
      /\ result v' = (result v ++ flat_string (emitted doc))%string.
Proof.
  induction doc as [t|sm c tl|ds IH|d IH|d IH] using document_ind; intros p v Hf Hn.
  - eexists. split; [reflexivity|]. simpl. now rewrite sapp_nil_r.
  - simpl corrected. rewrite feed_cons, cond_flat_step by lia.
    eexists. split; [reflexivity|]. simpl. now rewrite sapp_nil_r.
  - rewrite corrected_concat. simpl emitted. simpl nesting in Hn. revert p v Hf Hn.
    induction IH as [|d ds Hd _ IHds]; intros p v Hf Hn.
    + exists v. simpl. now rewrite sapp_nil_r.
    + simpl in Hn. rewrite corrected_children_cons, feed_app.
      destruct (Hd p v Hf ltac:(lia)) as (v1 & -> & Hf1 & Hr1 & Hi1 & Hs1).
      rewrite bind_Done.
      destruct (IHds (position_after p (emitted d)) v1 ltac:(lia) ltac:(lia))
        as (v2 & -> & Hf2 & Hr2 & Hi2 & Hs2).
      exists v2. split; [reflexivity|]. repeat split; try congruence.
      simpl flat_map. rewrite Hs2, Hs1, flat_string_app. apply sapp_assoc.
  - rewrite flat_string_group.
    simpl corrected. simpl nesting in Hn. pose proof (nesting_nonneg d) as Hd.
    rewrite feed_cons, output_visit_gbeg_inside, bind_Done by lia.
    rewrite feed_app.
    match goal with |- context [feed _ (corrected p d) ?v0] =>
      destruct (IH p v0) as (v1 & -> & Hf1 & Hr1 & Hi1 & Hs1) end.
    { simpl. rewrite uint_small; lia. }
    { simpl. rewrite uint_small; lia. }
    simpl in Hf1, Hr1, Hi1, Hs1. rewrite uint_small in Hf1 by lia.
    rewrite bind_Done, feed_cons, output_visit_gend_inside by lia.
    eexists. split; [reflexivity|]. simpl. rewrite Hf1, uint_small by lia.
    repeat split; try congruence; try lia.
  - rewrite flat_string_nest.
    simpl corrected. simpl nesting in Hn. pose proof (nesting_nonneg d) as Hd.
    rewrite feed_cons, output_visit_nbeg, bind_Done.
    rewrite feed_cons, output_visit_gbeg_inside, bind_Done by (simpl; lia).
    rewrite feed_app.
    match goal with |- context [feed _ (corrected p d) ?v0] =>
      destruct (IH p v0) as (v1 & -> & Hf1 & Hr1 & Hi1 & Hs1) end.
    { simpl. rewrite uint_small; lia. }
    { simpl. rewrite uint_small; lia. }
    simpl in Hf1, Hr1, Hi1, Hs1. rewrite uint_small in Hf1 by lia.
    rewrite bind_Done, feed_cons, output_visit_gend_inside, bind_Done by lia.
    rewrite feed_cons. erewrite output_visit_nend by (simpl; exact Hi1).
    eexists. split; [reflexivity|]. simpl. rewrite Hf1, uint_small by lia.
    repeat split; try congruence; try lia.
Qed.

(** Outside every group, a document all of whose conditionals are
    guarded is laid out flat when it ends within the right edge. *)
Lemma guarded_run doc :
  guarded doc = true ->
  forall p v,
    0 <= p -> fittingElements v = 0 ->
    p + flat_len (emitted doc) <= rightEdge v -> rightEdge v < uint_max ->
    nesting doc < uint_max ->
    exists v',
      feed output_visit (corrected p doc) v = Done v'
      /\ fittingElements v' = 0
      /\ rightEdge v' = rightEdge v
      /\ indent v' = indent v
      /\ result v' = (result v ++ flat_string (emitted doc))%string.
Proof.
  induction doc as [t|sm c tl|ds IH|d IH|d IH] using document_ind;
    intros Hg p v Hp Hf Hfit Hedge Hn.
  - eexists. split; [reflexivity|]. simpl. rewrite sapp_nil_r. auto.
  - discriminate.
  - rewrite corrected_concat. simpl emitted in *. simpl nesting in Hn.
    simpl guarded in Hg. revert p v Hp Hf Hfit Hedge Hn Hg.
    induction IH as [|d ds Hd _ IHds]; intros p v Hp Hf Hfit Hedge Hn Hg.
    + exists v. simpl. rewrite sapp_nil_r. auto.
    + simpl in Hn, Hg. apply andb_prop in Hg as [Hg1 Hg2].
      simpl flat_map in Hfit. rewrite flat_len_app in Hfit.
      pose proof (flat_len_nonneg (emitted d)).
      pose proof (flat_len_nonneg (flat_map emitted ds)).
      rewrite corrected_children_cons, feed_app.
      destruct (Hd Hg1 p v Hp Hf ltac:(lia) Hedge ltac:(lia))
        as (v1 & -> & Hf1 & Hr1 & Hi1 & Hs1).
      rewrite bind_Done.
      rewrite position_after_flat_len by (apply uint_small; lia).
      rewrite uint_small by lia.
      destruct (IHds (p + flat_len (emitted d)) v1 ltac:(lia) Hf1 ltac:(lia)
                  ltac:(lia) ltac:(lia) Hg2)
        as (v2 & -> & Hf2 & Hr2 & Hi2 & Hs2).
      exists v2. split; [reflexivity|]. repeat split; try congruence.
      simpl flat_map. rewrite Hs2, Hs1, flat_string_app. apply sapp_assoc.
  - rewrite flat_string_group.
    simpl corrected. simpl nesting in Hn. pose proof (nesting_nonneg d) as Hd.
    rewrite flat_len_group in Hfit.
    pose proof (flat_len_nonneg (emitted d)).
    rewrite position_after_flat_len by (apply uint_small; lia).
    rewrite (uint_small (p + _)) by lia.
    rewrite feed_cons, output_visit_gbeg_outside, bind_Done by exact Hf.
    rewrite uint_small by lia.
    destruct (Z.leb_spec (p + flat_len (emitted d)) (rightEdge v)); [|lia].
    rewrite Hf. change (uint (0 + 1)) with 1.
    rewrite feed_app.
    match goal with |- context [feed _ (corrected p d) ?v0] =>
      destruct (flat_run d p v0) as (v1 & -> & Hf1 & Hr1 & Hi1 & Hs1) end.
    { cbn [fittingElements]. lia. }
    { cbn [fittingElements]. lia. }
    simpl in Hf1, Hr1, Hi1, Hs1.
    rewrite bind_Done, feed_cons, output_visit_gend_inside by lia.
    eexists. split; [reflexivity|]. simpl. rewrite Hf1.
    repeat split; try congruence.
  - rewrite flat_string_nest.
    simpl corrected. simpl nesting in Hn. pose proof (nesting_nonneg d) as Hd.
    rewrite flat_len_nest in Hfit.
    pose proof (flat_len_nonneg (emitted d)).
    rewrite position_after_flat_len by (apply uint_small; lia).
    rewrite (uint_small (p + _)) by lia.
    rewrite feed_cons, output_visit_nbeg, bind_Done.
    rewrite feed_cons, output_visit_gbeg_outside, bind_Done by exact Hf.
    cbn [rightEdge fittingElements out_width out_hpos indent result].
    rewrite uint_small by lia.
    destruct (Z.leb_spec (p + flat_len (emitted d)) (rightEdge v)); [|lia].
    rewrite Hf. change (uint (0 + 1)) with 1.
    rewrite feed_app.
    match goal with |- context [feed _ (corrected p d) ?v0] =>
      destruct (flat_run d p v0) as (v1 & -> & Hf1 & Hr1 & Hi1 & Hs1) end.
    { cbn [fittingElements]. lia. }
    { cbn [fittingElements]. lia. }
    simpl in Hf1, Hr1, Hi1, Hs1.
    rewrite bind_Done, feed_cons, output_visit_gend_inside, bind_Done by lia.
    rewrite feed_cons. erewrite output_visit_nend by (simpl; exact Hi1).
    eexists. split; [reflexivity|]. simpl. rewrite Hf1.
    repeat split; try congruence.
Qed.

(** C1, as the code has it.  Take a document all of whose conditionals
    lie inside a group or a nest, whose flat text is shorter than [2^32]
    and whose groups nest less than [2^32] deep.  If its [width] is at most
    the page width, [pretty_print] returns the text payloads and the
    [small] strings in stream order, so the only newlines of the result
    are those inside these strings. *)
Theorem flat_fit (W : Z) (doc : document) :
  guarded doc = true ->
  flat_len (emitted doc) < uint_max ->
  nesting doc < uint_max ->
  0 <= W < uint_max ->
  width doc <= W ->
  pretty_print W doc = Done (flat_string (emitted doc))
  /\ forall s, pretty_print W doc = Done s ->
               count_newlines s = count_newlines (flat_string (emitted doc)).
Proof.
  intros Hg Hlen Hn HW Hw.
  assert (E : pretty_print W doc = Done (flat_string (emitted doc))).
  { rewrite pretty_print_feed.
    rewrite width_flat_len in Hw. unfold flat_width in Hw.
    pose proof (flat_len_nonneg (emitted doc)).
    rewrite uint_small in Hw by lia.
    destruct (guarded_run doc Hg 0 (output_visitor (uint W)))
      as (v & -> & _ & _ & _ & Hs); simpl; rewrite ?uint_small; try lia.
    simpl in Hs. rewrite Hs. reflexivity. }
  split; [exact E|]. intros s Hs. rewrite E in Hs. now injection Hs as <-.
Qed.

Lemma flat_fit_witness :
  pretty_print 80 (funcall "f" [text_t "a"; text_t "b"])
  = Done (flat_string (emitted (funcall "f" [text_t "a"; text_t "b"])))
  /\ forall s, pretty_print 80 (funcall "f" [text_t "a"; text_t "b"]) = Done s ->
               count_newlines s
               = count_newlines
                   (flat_string (emitted (funcall "f" [text_t "a"; text_t "b"]))).
Proof.
  apply (flat_fit 80 (funcall "f" [text_t "a"; text_t "b"])).
  - reflexivity.
  - reflexivity.
  - reflexivity.
  - unfold uint_max. lia.
  - vm_compute. discriminate.
Defined.

(** C1 as stated fails: a conditional outside every group breaks at any
    width.  The document [br] has width 1, yet at page width 80 it is laid
    out as a newline and not as its [small] string, a space. *)
Lemma flat_fit_counterexample :
  (width (cond_t " " "" "") <=? 80) = true
  /\ pretty_print 80 (cond_t " " "" "") = Done (String newline "")
  /\ flat_string (emitted (cond_t " " "" "")) = " "%string
  /\ count_newlines (String newline "") = 1%nat.
Proof. repeat split. Qed.

(** ** C4: page width 0 *)

Lemma observations_cons e l v v1 :
  output_visit e v = Done v1 ->
  observations (e :: l) v = observe e v ++ observations l v1.
Proof. intros H. simpl. now rewrite H. Qed.

Lemma observations_app l1 l2 :
  forall v v1,
    feed output_visit l1 v = Done v1 ->
    observations (l1 ++ l2) v = observations l1 v ++ observations l2 v1.
Proof.
  induction l1 as [|e l1 IH]; intros v v1 H.
  - simpl in H. injection H as <-. reflexivity.
  - rewrite feed_cons in H. destruct (output_visit e v) as [v0|f] eqn:E; [|discriminate].
    rewrite bind_Done in H. simpl. rewrite E, (IH v0 v1 H). apply app_assoc.
Qed.

Lemma feed_observe l :
  forall v log,
    feed observe_visit l (v, log)
    = (v' <- feed output_visit l v ;; Done (v', log ++ observations l v)).
Proof.
  induction l as [|e l IH]; intros v log.
  - simpl. now rewrite app_nil_r.
  - rewrite !feed_cons. unfold observe_visit at 1. simpl fst. simpl snd.
    destruct (output_visit e v) as [v0|f] eqn:E; [|reflexivity].
    rewrite !bind_Done, IH. simpl observations. rewrite E.
    apply bind_ext. intros v'. now rewrite app_assoc.
Qed.

Lemma render_log_eq w doc :
  render_log w doc
  = (v <- feed output_visit (corrected 0 doc) (output_visitor (uint w)) ;;
     Done (observations (corrected 0 doc) (output_visitor (uint w)))).
Proof.
  unfold render_log. rewrite chain_feed, feed_observe, !bind_assoc.
  apply bind_ext. intros v. reflexivity.
Qed.

Lemma size_zero s : size s = 0 -> s = ""%string.
Proof. destruct s; [reflexivity|]. unfold size. simpl. lia. Qed.

Lemma flat_len_text t : flat_len (emitted (text_t t)) = size t.
Proof. unfold flat_len. simpl. now rewrite sapp_nil_r. Qed.

Lemma flat_len_cond small cont tail :
  flat_len (emitted (cond_t small cont tail)) = size small.
Proof. unfold flat_len. simpl. now rewrite sapp_nil_r. Qed.

Lemma anchors_within p p' l :
  p <= p' -> Forall (fun i => 0 <= i <= p) l -> Forall (fun i => 0 <= i <= p') l.
Proof. intros Hp. apply Forall_impl. intros i. lia. Qed.

Lemma currentIndent_within v p :
  Forall (fun i => 0 <= i <= p) (indent v) -> 0 <= p -> 0 <= currentIndent v <= p.
Proof.
  unfold currentIndent. destruct (indent v) as [|i rest]; [lia|].
  intros H _. now inversion H.
Qed.

Lemma edge_text W v p t h :
  0 <= W -> edge_invariant W v p -> W + p + size t < uint_max ->
  exists v',
    output_visit (text_element_t t h) v = Done v'
    /\ edge_invariant W v' (p + size t)
    /\ fittingElements v' = fittingElements v
    /\ indent v' = indent v.
Proof.
  intros HW (Hw & Hh & Hr & Hi & Hf) Hlt. pose proof (size_nonneg t).
  eexists. split; [reflexivity|]. unfold edge_invariant. simpl.
  rewrite uint_small by lia. repeat split; auto; try lia.
  apply (anchors_within p); [lia | exact Hi].
Qed.

Lemma edge_cond_flat W v p small tail cont h :
  0 <= W -> edge_invariant W v p -> W + p + size small < uint_max ->
  fittingElements v <> 0 ->
  exists v',
    output_visit (cond_element_t small tail cont h) v = Done v'
    /\ edge_invariant W v' (p + size small)
    /\ fittingElements v' = fittingElements v
    /\ indent v' = indent v.
Proof.
  intros HW (Hw & Hh & Hr & Hi & Hf) Hlt Hfit. pose proof (size_nonneg small).
  rewrite cond_flat_step by exact Hfit.
  eexists. split; [reflexivity|]. unfold edge_invariant. simpl.
  rewrite uint_small by lia. repeat split; auto; try lia.
  apply (anchors_within p); [lia | exact Hi].
Qed.

Lemma edge_cond_break W v p small tail cont :
  0 <= W -> edge_invariant W v p -> W + p + size small < uint_max ->
  size cont <= size small ->
  fittingElements v = 0 ->
  exists v',
    output_visit (cond_element_t small tail cont (Some (uint (p + size small)))) v
    = Done v'
    /\ edge_invariant W v' (p + size small)
    /\ fittingElements v' = fittingElements v
    /\ indent v' = indent v.
Proof.
  intros HW (Hw & Hh & Hr & Hi & Hf) Hlt Hc Hfit.
  pose proof (size_nonneg small). pose proof (size_nonneg cont).
  pose proof (currentIndent_within v p Hi ltac:(lia)) as Hci.
  simpl. rewrite Hfit. simpl. fold (currentIndent v).
  eexists. split; [reflexivity|]. unfold edge_invariant. simpl.
  rewrite Hw, uint_add_l.
  rewrite (uint_small (currentIndent v + size cont)) by lia.
  rewrite (uint_small (p + size small)) by lia.
  rewrite uint_small by lia.
  repeat split; auto; try lia.
  apply (anchors_within p); [lia | exact Hi].
Qed.

Lemma edge_gbeg W v p q :
  edge_invariant W v p -> fittingElements v + 1 < uint_max ->
  exists v',
    output_visit (gbeg_element_t (Some q)) v = Done v'
    /\ edge_invariant W v' p
    /\ indent v' = indent v
    /\ fittingElements v'
       = (if fittingElements v =? 0
          then if uint q <=? rightEdge v then 1 else 0
          else fittingElements v + 1)
    /\ observe (gbeg_element_t (Some q)) v = [].
Proof.
  intros (Hw & Hh & Hr & Hi & Hf) Hlt.
  destruct (Z.eqb_spec (fittingElements v) 0) as [E|E].
  - rewrite output_visit_gbeg_outside by exact E. rewrite E.
    change (uint (0 + 1)) with 1.
    eexists. split; [reflexivity|]. unfold edge_invariant. simpl.
    repeat split; auto; try lia. destruct (uint q <=? rightEdge v); lia.
  - rewrite output_visit_gbeg_inside by exact E.
    eexists. split; [reflexivity|]. unfold edge_invariant. simpl.
    rewrite uint_small by lia. repeat split; auto; try lia.
Qed.

Lemma edge_gend W v p h :
  edge_invariant W v p -> fittingElements v < uint_max ->
  exists v',
    output_visit (gend_element_t h) v = Done v'
    /\ edge_invariant W v' p
    /\ indent v' = indent v
    /\ fittingElements v' = Z.max 0 (fittingElements v - 1)
    /\ observe (gend_element_t h) v = [].
Proof.
  intros (Hw & Hh & Hr & Hi & Hf) Hlt.
  destruct (Z.eqb_spec (fittingElements v) 0) as [E|E].
  - rewrite output_visit_gend_outside by exact E.
    exists v. unfold edge_invariant. repeat split; auto; try lia.
  - rewrite output_visit_gend_inside by exact E.
    eexists. split; [reflexivity|]. unfold edge_invariant. simpl.
    rewrite uint_small by lia. repeat split; auto; try lia.
Qed.

(** The output visitor keeps [edge_invariant] along the corrected stream
    of a document, and at page width 0 lays out flat only conditionals
    whose [small] is empty. *)
Lemma edge_run W doc :
  0 <= W ->
  conts_short doc = true ->
  forall p v,
    0 <= p ->
    edge_invariant W v p ->
    W + p + flat_len (emitted doc) < uint_max ->
    fittingElements v + nesting doc < uint_max ->
    exists v',
      feed output_visit (corrected p doc) v = Done v'
      /\ edge_invariant W v' (p + flat_len (emitted doc))
      /\ fittingElements v' = fittingElements v
      /\ indent v' = indent v
      /\ (W = 0 -> fittingElements v = 0 \/ flat_len (emitted doc) = 0 ->
          Forall flat_small_empty (observations (corrected p doc) v)).
Proof.
  intros HW.
  induction doc as [t|sm c tl|ds IH|d IH|d IH] using document_ind;
    intros Hcs p v Hp Hinv Hlen Hnest.
  - rewrite flat_len_text in *. simpl corrected.
    destruct (edge_text W v p t (Some (uint (p + size t))) HW Hinv Hlen)
      as (v' & Hstep & Hinv' & Hf' & Hi').
    exists v'. rewrite feed_cons, Hstep. split; [reflexivity|].
    split; [exact Hinv'|split; [exact Hf'|split; [exact Hi'|]]]. intros _ _. simpl. repeat constructor.
  - rewrite flat_len_cond in *. simpl corrected. simpl in Hcs.
    apply Z.leb_le in Hcs.
    destruct (Z.eq_dec (fittingElements v) 0) as [E|E].
    + destruct (edge_cond_break W v p sm tl c HW Hinv Hlen Hcs E)
        as (v' & Hstep & Hinv' & Hf' & Hi').
      exists v'. rewrite feed_cons, Hstep. split; [reflexivity|].
      split; [exact Hinv'|split; [exact Hf'|split; [exact Hi'|]]]. intros _ _. rewrite (observations_cons _ _ _ _ Hstep).
      simpl. rewrite E. simpl. repeat constructor.
    + destruct (edge_cond_flat W v p sm tl c (Some (uint (p + size sm))) HW Hinv Hlen E)
        as (v' & Hstep & Hinv' & Hf' & Hi').
      exists v'. rewrite feed_cons, Hstep. split; [reflexivity|].
      split; [exact Hinv'|split; [exact Hf'|split; [exact Hi'|]]].
      intros _ [E0|E0]; [contradiction|].
      rewrite (observations_cons _ _ _ _ Hstep). simpl.
      destruct (Z.eqb_spec (fittingElements v) 0); [contradiction|].
      repeat constructor. simpl. now apply size_zero.
  - rewrite corrected_concat. simpl emitted in *. simpl nesting in Hnest.
    simpl conts_short in Hcs. revert p v Hp Hinv Hlen Hnest Hcs.
    induction IH as [|d ds Hd _ IHds]; intros p v Hp Hinv Hlen Hnest Hcs.
    + exists v. unfold flat_len. simpl. rewrite Z.add_0_r.
      split; [reflexivity|]. split; [exact Hinv|]. split; [reflexivity|].
      split; [reflexivity|]. intros _ _. constructor.
    + simpl in Hnest, Hcs. apply andb_prop in Hcs as [Hcs1 Hcs2].
      simpl flat_map in *. rewrite flat_len_app in *.
      pose proof (flat_len_nonneg (emitted d)).
      pose proof (flat_len_nonneg (flat_map emitted ds)).
      rewrite corrected_children_cons, feed_app.
      destruct (Hd Hcs1 p v Hp Hinv ltac:(lia) ltac:(lia))
        as (v1 & Hrun1 & Hinv1 & Hf1 & Hi1 & Hobs1).
      rewrite Hrun1, bind_Done.
      rewrite position_after_flat_len by (apply uint_small; lia).
      rewrite uint_small by lia.
      destruct (IHds (p + flat_len (emitted d)) v1 ltac:(lia) Hinv1 ltac:(lia)
                  ltac:(lia) Hcs2)
        as (v2 & Hrun2 & Hinv2 & Hf2 & Hi2 & Hobs2).
      exists v2. split; [exact Hrun2|]. rewrite Z.add_assoc.
      split; [exact Hinv2|]. split; [congruence|]. split; [congruence|].
      intros HW0 Hor. rewrite (observations_app _ _ _ _ Hrun1).
      apply Forall_app. split.
      * apply Hobs1; [exact HW0|]. destruct Hor; [left; assumption | right; lia].
      * apply Hobs2; [exact HW0|]. destruct Hor; [left; congruence | right; lia].
  - rewrite flat_len_group in *. simpl corrected. simpl nesting in Hnest.
    simpl in Hcs. pose proof (nesting_nonneg d) as Hd.
    pose proof (flat_len_nonneg (emitted d)) as HL.
    destruct Hinv as (Hw & Hh & Hr & Hi & Hf).
    assert (Hinv : edge_invariant W v p) by (unfold edge_invariant; auto).
    rewrite position_after_flat_len by (apply uint_small; lia).
    rewrite (uint_small (p + _)) by lia.
    set (q := p + flat_len (emitted d)).
    destruct (edge_gbeg W v p q Hinv ltac:(lia))
      as (v1 & Hstep1 & Hinv1 & Hi1 & Hf1 & Ho1).
    assert (Hf1' : fittingElements v1 <= fittingElements v + 1).
    { rewrite Hf1. destruct (fittingElements v =? 0); [|lia].
      destruct (uint q <=? rightEdge v); lia. }
    destruct (IH Hcs p v1 Hp Hinv1 ltac:(lia) ltac:(lia))
      as (v2 & Hrun2 & Hinv2 & Hf2 & Hi2 & Hobs2).
    destruct (edge_gend W v2 q (Some q) Hinv2 ltac:(lia))
      as (v3 & Hstep3 & Hinv3 & Hi3 & Hf3 & Ho3).
    exists v3. split; [|split; [exact Hinv3|split; [|split; [congruence|]]]].
    + rewrite feed_cons, Hstep1, bind_Done, feed_app, Hrun2, bind_Done.
      rewrite feed_cons, Hstep3. reflexivity.
    + rewrite Hf3, Hf2, Hf1. destruct (Z.eqb_spec (fittingElements v) 0); [|lia].
      destruct (uint q <=? rightEdge v); lia.
    + intros HW0 Hor. rewrite (observations_cons _ _ _ _ Hstep1), Ho1. cbn [app].
      rewrite (observations_app _ _ _ _ Hrun2).
      rewrite (observations_cons _ _ _ _ Hstep3), Ho3. cbn [app observations].
      rewrite app_nil_r.
      apply Hobs2; [exact HW0|]. rewrite Hf1.
      destruct (Z.eqb_spec (fittingElements v) 0) as [E|E];
        [|destruct Hor; [contradiction | right; assumption]].
      destruct (Z.leb_spec (uint q) (rightEdge v)) as [Hle|Hgt]; [right | left; reflexivity].
      unfold q in Hle. rewrite uint_small in Hle by lia. lia.
  - rewrite flat_len_nest in *. simpl corrected. simpl nesting in Hnest.
    simpl in Hcs. pose proof (nesting_nonneg d) as Hd.
    pose proof (flat_len_nonneg (emitted d)) as HL.
    destruct Hinv as (Hw & Hh & Hr & Hi & Hf).
    rewrite position_after_flat_len by (apply uint_small; lia).
    rewrite (uint_small (p + _)) by lia.
    set (q := p + flat_len (emitted d)).
    set (v0 := mk_output (out_width v) (fittingElements v) (rightEdge v)
                 (out_hpos v) (out_hpos v :: indent v) (result v)).
    assert (Hinv0 : edge_invariant W v0 p).
    { unfold edge_invariant, v0. simpl. repeat split; auto; try lia. }
    assert (Hlt0 : fittingElements v0 + 1 < uint_max)
      by (unfold v0; cbn [fittingElements]; lia).
    destruct (edge_gbeg W v0 p q Hinv0 Hlt0)
      as (v1 & Hstep1 & Hinv1 & Hi1 & Hf1 & Ho1).
    cbn [fittingElements rightEdge indent v0] in Hf1, Hi1.
    assert (Hf1' : fittingElements v1 <= fittingElements v + 1).
    { rewrite Hf1. destruct (fittingElements v =? 0); [|lia].
      destruct (uint q <=? rightEdge v); lia. }
    destruct (IH Hcs p v1 Hp Hinv1 ltac:(lia) ltac:(lia))
      as (v2 & Hrun2 & Hinv2 & Hf2 & Hi2 & Hobs2).
    destruct (edge_gend W v2 q (Some q) Hinv2 ltac:(lia))
      as (v3 & Hstep3 & Hinv3 & Hi3 & Hf3 & Ho3).
    assert (Hi3' : indent v3 = out_hpos v :: indent v) by congruence.
    pose proof (output_visit_nend (Some q) v3 _ _ Hi3') as Hstep4.
    exists (mk_output (out_width v3) (fittingElements v3) (rightEdge v3)
              (out_hpos v3) (indent v) (result v3)).
    split; [|split; [|split; [|split; [reflexivity|]]]].
    + rewrite feed_cons, output_visit_nbeg, bind_Done. fold v0.
      rewrite feed_cons, Hstep1, bind_Done, feed_app, Hrun2, bind_Done.
      rewrite feed_cons, Hstep3, bind_Done, feed_cons, Hstep4. reflexivity.
    + destruct Hinv3 as (Hw3 & Hh3 & Hr3 & Hi3'' & Hf3'').
      unfold edge_invariant. simpl. repeat split; auto; try lia.
      rewrite Hi3' in Hi3''. now inversion Hi3''.
    + simpl. rewrite Hf3, Hf2, Hf1. destruct (Z.eqb_spec (fittingElements v) 0); [|lia].
      destruct (uint q <=? rightEdge v); lia.
    + intros HW0 Hor.
      rewrite (observations_cons _ _ _ _ (output_visit_nbeg None v)). fold v0.
      apply Forall_app. split; [repeat constructor|].
      rewrite (observations_cons _ _ _ _ Hstep1), Ho1. cbn [app].
      rewrite (observations_app _ _ _ _ Hrun2).
      rewrite (observations_cons _ _ _ _ Hstep3), Ho3. cbn [app].
      rewrite (observations_cons _ _ _ _ Hstep4).
      apply Forall_app. split; [|repeat constructor].
      apply Hobs2; [exact HW0|]. rewrite Hf1.
      destruct (Z.eqb_spec (fittingElements v) 0) as [E|E];
        [|destruct Hor; [contradiction | right; assumption]].
      destruct (Z.leb_spec (uint q) (rightEdge v)) as [Hle|Hgt]; [right | left; reflexivity].
      unfold q in Hle. rewrite uint_small in Hle by lia. lia.
Qed.

Lemma forallb_forget (P : stream_element_t -> bool) doc p :
  (forall e, P (forget e) = P e) ->
  forallb P (corrected p doc) = forallb P (emitted doc).
Proof.
  intros HP. rewrite <- (forget_corrected doc p).
  induction (corrected p doc) as [|e l IH]; simpl; [reflexivity|].
  now rewrite HP, IH.
Qed.

Lemma forallb_flat_map {A B} (P : B -> bool) (f : A -> list B) l :
  forallb P (flat_map f l) = forallb (fun x => forallb P (f x)) l.
Proof.
  induction l as [|a l IH]; simpl; [reflexivity|]. now rewrite forallb_app, IH.
Qed.




Lemma cont_short_forget e : cont_short (forget e) = cont_short e.
Proof. destruct e; reflexivity. Qed.

Lemma cont_short_emitted doc : forallb cont_short (emitted doc) = conts_short doc.
Proof.
  induction doc as [t|sm c tl|ds IH|d IH|d IH] using document_ind;
    cbn [emitted conts_short forallb cont_short].
  - reflexivity.
  - apply andb_true_r.
  - rewrite forallb_flat_map. induction IH as [|d ds Hd _ IHds]; [reflexivity|].
    cbn [forallb]. now rewrite Hd, IHds.
  - rewrite forallb_app, IH. cbn [forallb cont_short]. now rewrite !andb_true_r.
  - rewrite forallb_app, IH. cbn [forallb cont_short]. now rewrite !andb_true_r.
Qed.




(** ** C6: newlines and the page width *)

Lemma forallb_corrected_children (P : stream_element_t -> bool) ds p :
  (forall e, P (forget e) = P e) ->
  forallb P (corrected_children p ds)
  = forallb (fun d => forallb P (emitted d)) ds.
Proof.
  intros HP. rewrite <- corrected_concat, (forallb_forget P _ _ HP).
  simpl emitted. apply forallb_flat_map.
Qed.

Lemma corrected_children_app ds1 :
  forall p ds2,
    corrected_children p (ds1 ++ ds2)
    = corrected_children p ds1
        ++ corrected_children (position_after p (flat_map emitted ds1)) ds2.
Proof.
  induction ds1 as [|d ds1 IH]; intros p ds2; [reflexivity|].
  simpl app. rewrite !corrected_children_cons, IH, <- app_assoc.
  simpl flat_map. now rewrite position_after_app.
Qed.

Lemma is_plain_forget e : is_plain_element (forget e) = is_plain_element e.
Proof. destruct e; reflexivity. Qed.

Lemma small_newline_free_forget e : small_newline_free (forget e) = small_newline_free e.
Proof. destruct e; reflexivity. Qed.

(** A stream of texts and conditionals puts out its flat newlines inside
    a group that fits, and the newlines of all its breaks otherwise. *)
Lemma plain_run l :
  forallb is_plain_element l = true ->
  Forall hpos_defined l ->
  forall v, exists v',
    feed output_visit l v = Done v'
    /\ fittingElements v' = fittingElements v
    /\ indent v' = indent v
    /\ count_newlines (result v')
       = (count_newlines (result v)
          + (if (fittingElements v =? 0)%Z then broken_newlines l
             else count_newlines (flat_string l)))%nat.
Proof.
  induction l as [|e l IH]; intros Hl Hh v.
  - exists v. simpl. destruct (fittingElements v =? 0); auto.
  - simpl in Hl. apply andb_prop in Hl as [He Hl]. inversion Hh as [|? ? He' Hh']; subst.
    destruct e as [t h|sm tl c h|h|h|h|h]; try discriminate.
    + rewrite feed_cons, output_visit_text, bind_Done.
      destruct (IH Hl Hh' (mk_output (out_width v) (fittingElements v) (rightEdge v)
                         (uint (out_hpos v + size t)) (indent v)
                         (result v ++ t)%string))
        as (v' & Hrun & Hf & Hi & Hs).
      exists v'. split; [exact Hrun|]. simpl in *. repeat split; auto.
      rewrite Hs, !count_newlines_append.
      destruct (fittingElements v =? 0); lia.
    + destruct He' as [q Hq]. simpl in Hq. subst h.
      destruct (Z.eqb_spec (fittingElements v) 0) as [E|E].
      * rewrite feed_cons. simpl output_visit. rewrite E. simpl Z.eqb. cbv iota.
        rewrite bind_Done.
        match goal with |- context [feed _ l ?v0] =>
          destruct (IH Hl Hh' v0) as (v' & Hrun & Hf & Hi & Hs) end.
        exists v'. split; [exact Hrun|]. cbn [fittingElements indent result] in *.
        split; [exact Hf|]. split; [exact Hi|].
        rewrite Hs. cbn [Z.eqb broken_newlines break_newlines].
        rewrite !count_newlines_append. cbn [count_newlines].
        rewrite count_newlines_append, count_newlines_spaces.
        change (Ascii.eqb newline newline) with true. cbv iota. lia.
      * rewrite feed_cons, cond_flat_step, bind_Done by exact E.
        match goal with |- context [feed _ l ?v0] =>
          destruct (IH Hl Hh' v0) as (v' & Hrun & Hf & Hi & Hs) end.
        exists v'. split; [exact Hrun|]. cbn [fittingElements indent result] in *.
        split; [exact Hf|]. split; [exact Hi|]. rewrite Hs.
        destruct (Z.eqb_spec (fittingElements v) 0); [contradiction|].
        cbn [flat_string flat_text]. rewrite !count_newlines_append. lia.
Qed.

Lemma group_free_corrected c p :
  group_free c = true ->
  forallb is_plain_element (corrected p c) = true
  /\ Forall hpos_defined (corrected p c).
Proof.
  intros H. split; [|apply hpos_defined_corrected].
  rewrite (forallb_forget _ _ _ is_plain_forget). exact H.
Qed.

Lemma output_visit_in_step e v1 v2 v1' v2' :
  is_plain_element e = true ->
  in_step v1 v2 ->
  output_visit e v1 = Done v1' -> output_visit e v2 = Done v2' ->
  in_step v1' v2'.
Proof.
  intros He (Hf & Hh & Hi).
  destruct e as [t h|sm tl c h|h|h|h|h]; try discriminate; simpl.
  - intros [= <-] [= <-]. unfold in_step. simpl. rewrite Hh. auto.
  - rewrite <- Hf, <- Hi, <- Hh. destruct (fittingElements v1 =? 0).
    + destruct h; [|discriminate]. intros [= <-] [= <-]. unfold in_step. simpl. auto.
    + intros [= <-] [= <-]. unfold in_step. simpl. auto.
Qed.

Lemma plain_in_step l :
  forallb is_plain_element l = true ->
  forall v1 v2 v1' v2',
    in_step v1 v2 ->
    feed output_visit l v1 = Done v1' -> feed output_visit l v2 = Done v2' ->
    in_step v1' v2'.
Proof.
  induction l as [|e l IH]; intros Hl v1 v2 v1' v2' Hs H1 H2.
  - simpl in *. injection H1 as <-. injection H2 as <-. exact Hs.
  - simpl in Hl. apply andb_prop in Hl as [He Hl]. rewrite feed_cons in H1, H2.
    destruct (output_visit e v1) as [v1a|] eqn:E1; [|discriminate].
    destruct (output_visit e v2) as [v2a|] eqn:E2; [|discriminate].
    rewrite bind_Done in H1, H2.
    apply (IH Hl v1a v2a v1' v2'); auto.
    eapply output_visit_in_step; eauto.
Qed.

(** Whatever it decides, the output visitor puts out at least the
    newlines of the flat text. *)
Lemma newlines_lower_bound l :
  forallb small_newline_free l = true ->
  forall v v',
    feed output_visit l v = Done v' ->
    (count_newlines (result v) + count_newlines (flat_string l)
     <= count_newlines (result v'))%nat.
Proof.
  induction l as [|e l IH]; intros Hl v v' H.
  - simpl in *. injection H as <-. lia.
  - simpl in Hl. apply andb_prop in Hl as [He Hl]. rewrite feed_cons in H.
    destruct (output_visit e v) as [va|] eqn:E; [|discriminate].
    rewrite bind_Done in H. specialize (IH Hl va v' H).
    cbn [flat_string]. rewrite count_newlines_append.
    assert (count_newlines (result v) + count_newlines (flat_text e)
            <= count_newlines (result va))%nat; [|lia].
    clear IH H. destruct e as [t h|sm tl c h|h|h|h|h]; simpl in E.
    + injection E as <-. simpl. rewrite count_newlines_append. lia.
    + simpl in He. apply Nat.eqb_eq in He. simpl. rewrite He.
      destruct (fittingElements v =? 0).
      * destruct h; [|discriminate]. injection E as <-. simpl.
        rewrite count_newlines_append. lia.
      * injection E as <-. simpl. rewrite count_newlines_append. lia.
    + injection E as <-. simpl. lia.
    + destruct (indent v); [discriminate|]. injection E as <-. simpl. lia.
    + destruct (negb (fittingElements v =? 0)).
      * injection E as <-. simpl. lia.
      * destruct h; [|discriminate]. destruct (uint z <=? rightEdge v);
          injection E as <-; simpl; lia.
    + destruct (negb (fittingElements v =? 0)); injection E as <-; simpl; lia.
Qed.

Lemma output_visit_bracket_frame e v v' :
  is_plain_element e = false ->
  output_visit e v = Done v' ->
  out_hpos v' = out_hpos v /\ result v' = result v
  /\ rightEdge v' = rightEdge v /\ out_width v' = out_width v.
Proof.
  destruct e as [t h|sm tl c h|h|h|h|h]; try discriminate; intros _; simpl.
  - intros [= <-]. auto.
  - destruct (indent v); [discriminate|]. intros [= <-]. auto.
  - destruct (negb (fittingElements v =? 0)); [intros [= <-]; auto|].
    destruct h; [|discriminate]. destruct (uint z <=? rightEdge v);
      intros [= <-]; auto.
  - destruct (negb (fittingElements v =? 0)); intros [= <-]; auto.
Qed.

Lemma flat_string_corrected p doc :
  flat_string (corrected p doc) = flat_string (emitted doc).
Proof. now rewrite <- (forget_corrected doc p), flat_string_forget. Qed.

Lemma smalls_newline_free_group c :
  smalls_newline_free (group_t c) = smalls_newline_free c.
Proof.
  unfold smalls_newline_free. simpl. rewrite forallb_app. simpl.
  now rewrite andb_true_r.
Qed.

Lemma smalls_newline_free_nest c :
  smalls_newline_free (nest_t c) = smalls_newline_free c.
Proof.
  unfold smalls_newline_free. simpl. rewrite forallb_app. simpl.
  now rewrite andb_true_r.
Qed.

Section Monotone.
Variables W1 W2 : Z.
Hypothesis HW : 0 <= W2 <= W1.

Lemma plain_monotone doc : group_free doc = true -> monotone_run W1 W2 doc.
Proof.
  intros Hg Hcs Hs p v1 v2 Hp Hinv1 Hinv2 (Hfe & Hhe & Hie) Hf1 Hlen Hnest.
  destruct (group_free_corrected doc p Hg) as [Hplain Hdef].
  destruct (plain_run _ Hplain Hdef v1) as (v1' & Hrun1 & Hf1' & Hi1' & Hn1).
  destruct (plain_run _ Hplain Hdef v2) as (v2' & Hrun2 & Hf2' & Hi2' & Hn2).
  exists v1', v2'. rewrite <- Hfe, Hf1 in *. simpl in Hn1, Hn2.
  repeat split; auto; try congruence. lia.
Qed.

Lemma group_monotone c : monotone_run W1 W2 c -> monotone_run W1 W2 (group_t c).
Proof.
  intros IHc Hcs Hs p v1 v2 Hp Hinv1 Hinv2 (Hfe & Hhe & Hie) Hf1 Hlen Hnest.
  rewrite flat_len_group in Hlen. simpl nesting in Hnest. simpl in Hcs.
  rewrite smalls_newline_free_group in Hs.
  pose proof (nesting_nonneg c) as Hd.
  pose proof (flat_len_nonneg (emitted c)) as HL.
  assert (Hf2 : fittingElements v2 = 0) by congruence.
  pose proof Hinv1 as (Hw1 & Hh1 & Hr1 & Hi1 & _).
  pose proof Hinv2 as (Hw2 & Hh2 & Hr2 & Hi2 & _).
  simpl corrected.
  rewrite position_after_flat_len by (apply uint_small; lia).
  rewrite (uint_small (p + _)) by lia.
  set (q := p + flat_len (emitted c)).
  destruct (edge_gbeg W1 v1 p q Hinv1 ltac:(lia))
    as (v1a & Hstep1 & Hinv1a & Hi1a & Hf1a & _).
  destruct (edge_gbeg W2 v2 p q Hinv2 ltac:(lia))
    as (v2a & Hstep2 & Hinv2a & Hi2a & Hf2a & _).
  destruct (output_visit_bracket_frame (gbeg_element_t (Some q)) _ _ eq_refl Hstep1)
    as (Hh1a & Hs1a & Hr1a & _).
  destruct (output_visit_bracket_frame (gbeg_element_t (Some q)) _ _ eq_refl Hstep2)
    as (Hh2a & Hs2a & Hr2a & _).
  rewrite Hf1 in Hf1a. rewrite Hf2 in Hf2a. simpl Z.eqb in Hf1a, Hf2a. cbv iota in Hf1a, Hf2a.
  rewrite (uint_small q) in Hf1a, Hf2a by (unfold q; lia).
  rewrite !feed_cons, Hstep1, Hstep2, !bind_Done, !feed_app.
  destruct (Z.leb_spec q (rightEdge v1)) as [Hfit1|Hfit1];
    destruct (Z.leb_spec q (rightEdge v2)) as [Hfit2|Hfit2]; try lia.
  - (* both fit *)
    destruct (flat_run c p v1a ltac:(lia) ltac:(lia)) as (v1b & -> & Hf1b & _ & Hi1b & Hs1b).
    destruct (flat_run c p v2a ltac:(lia) ltac:(lia)) as (v2b & -> & Hf2b & _ & Hi2b & Hs2b).
    rewrite !bind_Done, !feed_cons, !output_visit_gend_inside by lia.
    eexists. eexists. split; [reflexivity|]. split; [reflexivity|].
    cbn [fittingElements indent result]. rewrite Hf1b, Hf1a, Hf2b, Hf2a.
    split; [reflexivity|]. split; [reflexivity|].
    split; [congruence|]. split; [congruence|].
    rewrite Hs1b, Hs2b, Hs1a, Hs2a, !count_newlines_append. lia.
  - (* the wider page fits, the narrower one breaks *)
    destruct (flat_run c p v1a ltac:(lia) ltac:(lia)) as (v1b & -> & Hf1b & _ & Hi1b & Hs1b).
    destruct (edge_run W2 c ltac:(lia) Hcs p v2a Hp Hinv2a ltac:(lia) ltac:(lia))
      as (v2b & Hrun2 & _ & Hf2b & Hi2b & _).
    pose proof (newlines_lower_bound (corrected p c)) as Hlow.
    rewrite (forallb_forget _ _ _ small_newline_free_forget) in Hlow.
    specialize (Hlow Hs v2a v2b Hrun2). rewrite flat_string_corrected in Hlow.
    rewrite Hrun2, !bind_Done, !feed_cons.
    rewrite output_visit_gend_inside by lia.
    rewrite output_visit_gend_outside by congruence.
    eexists. eexists. split; [reflexivity|]. split; [reflexivity|].
    cbn [fittingElements indent result]. rewrite Hf1b, Hf1a.
    split; [reflexivity|]. split; [congruence|].
    split; [congruence|]. split; [congruence|].
    rewrite Hs1b, Hs1a, count_newlines_append. rewrite Hs2a in Hlow. lia.
  - (* both break *)
    destruct (IHc Hcs Hs p v1a v2a Hp Hinv1a Hinv2a) as
      (v1b & v2b & Hrun1 & Hrun2 & Hf1b & Hf2b & Hi1b & Hi2b & Hn);
      [unfold in_step; repeat split; congruence | exact Hf1a | lia | lia |].
    rewrite Hrun1, Hrun2, !bind_Done, !feed_cons.
    rewrite !output_visit_gend_outside by assumption.
    exists v1b, v2b. split; [reflexivity|]. split; [reflexivity|].
    split; [exact Hf1b|]. split; [exact Hf2b|].
    split; [congruence|]. split; [congruence|].
    rewrite Hs1a, Hs2a in Hn. exact Hn.
Qed.

Lemma corrected_nest p c :
  corrected p (nest_t c)
  = nbeg_element_t None
      :: corrected p (group_t c)
      ++ [nend_element_t (Some (position_after p (emitted c)))].
Proof. simpl. now rewrite <- app_assoc. Qed.

Lemma nest_monotone c : monotone_run W1 W2 c -> monotone_run W1 W2 (nest_t c).
Proof.
  intros IHc Hcs Hs p v1 v2 Hp Hinv1 Hinv2 (Hfe & Hhe & Hie) Hf1 Hlen Hnest.
  rewrite flat_len_nest in Hlen. rewrite smalls_newline_free_nest in Hs.
  pose proof Hinv1 as (Hw1 & Hh1 & Hr1 & Hi1 & Hp1).
  pose proof Hinv2 as (Hw2 & Hh2 & Hr2 & Hi2 & Hp2).
  rewrite corrected_nest, !feed_cons, !output_visit_nbeg, !bind_Done, !feed_app.
  set (v1n := mk_output (out_width v1) (fittingElements v1) (rightEdge v1)
                (out_hpos v1) (out_hpos v1 :: indent v1) (result v1)).
  set (v2n := mk_output (out_width v2) (fittingElements v2) (rightEdge v2)
                (out_hpos v2) (out_hpos v2 :: indent v2) (result v2)).
  assert (Hinv1n : edge_invariant W1 v1n p).
  { unfold edge_invariant, v1n. simpl. repeat split; auto; try lia. }
  assert (Hinv2n : edge_invariant W2 v2n p).
  { unfold edge_invariant, v2n. simpl. repeat split; auto; try lia. }
  destruct (group_monotone c IHc Hcs ltac:(now rewrite smalls_newline_free_group)
              p v1n v2n Hp Hinv1n Hinv2n)
    as (v1g & v2g & Hrun1 & Hrun2 & Hf1g & Hf2g & Hi1g & Hi2g & Hn).
  { unfold in_step, v1n, v2n. simpl. repeat split; congruence. }
  { exact Hf1. }
  { now rewrite flat_len_group. }
  { exact Hnest. }
  unfold v1n in Hi1g. unfold v2n in Hi2g. cbn [indent] in Hi1g, Hi2g.
  rewrite Hrun1, Hrun2, !bind_Done, !feed_cons.
  rewrite (output_visit_nend _ v1g _ _ Hi1g), (output_visit_nend _ v2g _ _ Hi2g).
  eexists. eexists. split; [reflexivity|]. split; [reflexivity|].
  cbn [fittingElements indent result].
  split; [exact Hf1g|]. split; [exact Hf2g|].
  split; [reflexivity|]. split; [reflexivity|]. exact Hn.
Qed.

Lemma nesting_concat_app l1 l2 :
  nesting (concat_t (l1 ++ l2))
  = Z.max (nesting (concat_t l1)) (nesting (concat_t l2)).
Proof.
  pose proof (nesting_nonneg (concat_t l2)) as H2. simpl in *.
  induction l1 as [|d l1 IH]; simpl; [lia|]. rewrite IH. lia.
Qed.

Lemma group_free_concat ds :
  forallb group_free ds = true -> group_free (concat_t ds) = true.
Proof. unfold group_free. simpl. now rewrite forallb_flat_map. Qed.

Lemma concat_monotone before d after :
  forallb group_free before = true ->
  monotone_run W1 W2 d ->
  forallb group_free after = true ->
  monotone_run W1 W2 (concat_t (before ++ d :: after)).
Proof.
  intros Hb IHd Ha Hcs Hs p v1 v2 Hp Hinv1 Hinv2 Hstep Hf1 Hlen Hnest.
  pose proof Hstep as (Hfe & Hhe & Hie).
  assert (Hf2 : fittingElements v2 = 0) by congruence.
  simpl conts_short in Hcs. rewrite forallb_app in Hcs.
  apply andb_prop in Hcs as [Hcsb Hcs]. simpl in Hcs.
  apply andb_prop in Hcs as [Hcsd _].
  unfold smalls_newline_free in Hs. simpl emitted in Hs.
  rewrite forallb_flat_map, forallb_app in Hs. apply andb_prop in Hs as [_ Hs].
  simpl forallb in Hs. apply andb_prop in Hs as [Hsd _].
  rewrite nesting_concat_app in Hnest.
  change (nesting (concat_t (d :: after)))
    with (Z.max (nesting d) (nesting (concat_t after))) in Hnest.
  simpl emitted in Hlen. rewrite flat_map_app, flat_len_app in Hlen.
  simpl flat_map in Hlen. rewrite flat_len_app in Hlen.
  pose proof (flat_len_nonneg (flat_map emitted before)) as HLb.
  pose proof (flat_len_nonneg (emitted d)) as HLd.
  pose proof (flat_len_nonneg (flat_map emitted after)) as HLa.
  pose proof (nesting_nonneg (concat_t before)) as Hnb.
  rewrite corrected_concat, corrected_children_app, corrected_children_cons.
  rewrite (position_after_flat_len (flat_map emitted before))
    by (apply uint_small; lia).
  rewrite (uint_small (p + _)) by lia.
  set (p1 := p + flat_len (flat_map emitted before)).
  set (p2 := position_after p1 (emitted d)).
  (* the documents before *)
  assert (Hgb : group_free (concat_t before) = true) by now apply group_free_concat.
  destruct (group_free_corrected _ p Hgb) as [Hplainb Hdefb].
  rewrite corrected_concat in Hplainb, Hdefb.
  destruct (plain_run _ Hplainb Hdefb v1) as (v1a & Hrun1a & Hf1a & Hi1a & Hn1a).
  destruct (plain_run _ Hplainb Hdefb v2) as (v2a & Hrun2a & Hf2a & Hi2a & Hn2a).
  destruct (edge_run W1 (concat_t before) ltac:(lia) Hcsb p v1 Hp Hinv1
              ltac:(simpl emitted; lia) ltac:(lia))
    as (v1x & Hrun1x & Hinv1a & _).
  destruct (edge_run W2 (concat_t before) ltac:(lia) Hcsb p v2 Hp Hinv2
              ltac:(simpl emitted; lia) ltac:(lia))
    as (v2x & Hrun2x & Hinv2a & _).
  rewrite corrected_concat, Hrun1a in Hrun1x. injection Hrun1x as <-.
  rewrite corrected_concat, Hrun2a in Hrun2x. injection Hrun2x as <-.
  simpl emitted in Hinv1a, Hinv2a. fold p1 in Hinv1a, Hinv2a.
  pose proof (plain_in_step _ Hplainb v1 v2 v1a v2a Hstep Hrun1a Hrun2a) as Hstepa.
  rewrite Hf1 in Hn1a. rewrite Hf2 in Hn2a. simpl Z.eqb in Hn1a, Hn2a.
  cbv iota in Hn1a, Hn2a.
  (* the document with the groups *)
  destruct (IHd Hcsd Hsd p1 v1a v2a ltac:(unfold p1; lia) Hinv1a Hinv2a Hstepa
              ltac:(congruence) ltac:(unfold p1; lia) ltac:(lia))
    as (v1b & v2b & Hrun1b & Hrun2b & Hf1b & Hf2b & Hi1b & Hi2b & Hnb').
  (* the documents after *)
  assert (Hga : group_free (concat_t after) = true) by now apply group_free_concat.
  destruct (group_free_corrected _ p2 Hga) as [Hplaina Hdefa].
  rewrite corrected_concat in Hplaina, Hdefa.
  destruct (plain_run _ Hplaina Hdefa v1b) as (v1c & Hrun1c & Hf1c & Hi1c & Hn1c).
  destruct (plain_run _ Hplaina Hdefa v2b) as (v2c & Hrun2c & Hf2c & Hi2c & Hn2c).
  rewrite Hf1b in Hn1c. rewrite Hf2b in Hn2c. simpl Z.eqb in Hn1c, Hn2c.
  cbv iota in Hn1c, Hn2c.
  exists v1c, v2c.
  rewrite !feed_app, Hrun1a, Hrun2a, !bind_Done, !feed_app, Hrun1b, Hrun2b, !bind_Done.
  split; [exact Hrun1c|]. split; [exact Hrun2c|].
  split; [congruence|]. split; [congruence|].
  split; [congruence|]. split; [congruence|]. lia.
Qed.

Lemma nested_groups_monotone doc : nested_groups doc -> monotone_run W1 W2 doc.
Proof.
  induction 1 as [doc Hg|c _ IH|c _ IH|before d after Hb _ IH Ha].
  - now apply plain_monotone.
  - now apply group_monotone.
  - now apply nest_monotone.
  - now apply concat_monotone.
Qed.

End Monotone.

(** C6, as the code has it.  Take a document in which no group or nest
    comes after another one has closed, no [cont] is longer than its
    [small] and no [small] holds a newline, and page widths [W2 <= W1]
    such that [W1] plus the length of the flat text stays below [2^32],
    the groups nesting less than [2^32] deep.  Then the layout at [W1] has
    no more newlines than the layout at [W2]. *)
Theorem newlines_monotone_nested_groups (doc : document) (W1 W2 : Z) :
  nested_groups doc ->
  conts_short doc = true ->
  smalls_newline_free doc = true ->
  0 <= W2 <= W1 ->
  W1 + flat_len (emitted doc) < uint_max ->
  nesting doc < uint_max ->
  exists s1 s2,
    pretty_print W1 doc = Done s1
    /\ pretty_print W2 doc = Done s2
    /\ (count_newlines s1 <= count_newlines s2)%nat.
Proof.
  intros Hg Hcs Hs HW Hlen Hnest.
  pose proof (flat_len_nonneg (emitted doc)) as HL.
  assert (Hinv : forall W, 0 <= W < uint_max ->
                           edge_invariant W (output_visitor (uint W)) 0).
  { intros W HWr. unfold edge_invariant. simpl. rewrite uint_small by lia.
    repeat split; auto; lia. }
  destruct (nested_groups_monotone W1 W2 HW doc Hg Hcs Hs 0
              (output_visitor (uint W1)) (output_visitor (uint W2)))
    as (v1 & v2 & Hrun1 & Hrun2 & _ & _ & _ & _ & Hn);
    try (apply Hinv; lia); try lia; try reflexivity.
  { unfold in_step. simpl. auto. }
  exists (result v1), (result v2). rewrite !pretty_print_feed, Hrun1, Hrun2.
  split; [reflexivity|]. split; [reflexivity|]. simpl in Hn. lia.
Qed.

Lemma newlines_monotone_nested_groups_witness :
  exists s1 s2,
    pretty_print 12
      (group_t (concat_t [text_t "abc"; br;
                          nest_t (concat_t [text_t "d"; br; text_t "e"]);
                          text_t "f"])) = Done s1
    /\ pretty_print 6
         (group_t (concat_t [text_t "abc"; br;
                             nest_t (concat_t [text_t "d"; br; text_t "e"]);
                             text_t "f"])) = Done s2
    /\ (count_newlines s1 <= count_newlines s2)%nat.
Proof.
  apply (newlines_monotone_nested_groups
           (group_t (concat_t [text_t "abc"; br;
                               nest_t (concat_t [text_t "d"; br; text_t "e"]);
                               text_t "f"])) 12 6).
  - apply nested_groups_group.
    apply (nested_groups_concat [text_t "abc"; br]
             (nest_t (concat_t [text_t "d"; br; text_t "e"])) [text_t "f"]).
    + reflexivity.
    + apply nested_groups_nest, nested_groups_none. reflexivity.
    + reflexivity.
  - reflexivity.
  - reflexivity.
  - lia.
  - reflexivity.
  - reflexivity.
Defined.

(** C6 as stated fails.  At page width 7 the first group of this document
    fits and leaves the second one, which then ends beyond the right edge,
    to break twice; at width 6 the first group breaks once and the second
    one fits on the new line.  The wider page has more newlines. *)
Lemma newlines_monotone_counterexample :
  pretty_print 7
    (concat_t [group_t (concat_t [text_t "aaaaaa"; br]);
               group_t (concat_t [text_t "c"; br; text_t "d"; br; text_t "e"])])
  = Done ("aaaaaa c" ++ String newline ("d" ++ String newline "e"))%string
  /\ pretty_print 6
       (concat_t [group_t (concat_t [text_t "aaaaaa"; br]);
                  group_t (concat_t [text_t "c"; br; text_t "d"; br; text_t "e"])])
     = Done ("aaaaaa" ++ String newline "c d e")%string
  /\ (count_newlines ("aaaaaa" ++ String newline "c d e")
      < count_newlines ("aaaaaa c" ++ String newline ("d" ++ String newline "e")))%nat.
Proof. repeat split; vm_compute; reflexivity. Qed.

(** * Further properties of the code *)

(** ** Documents with the same stream *)

Lemma pretty_print_emitted W d1 d2 :
  emitted d1 = emitted d2 -> pretty_print W d1 = pretty_print W d2.
Proof.
  intros H. unfold pretty_print. rewrite !generate_stream_feed, H. reflexivity.
Qed.

Lemma emitted_concat_app l1 l2 :
  emitted (concat_t (l1 ++ l2)) = emitted (concat_t l1) ++ emitted (concat_t l2).
Proof. simpl. apply flat_map_app. Qed.

(** X1.  A [concat_t] inside a [concat_t] can be flattened, and a
    [concat_t] of one document is that document: the layout and the
    [width] are the same, at every page width. *)
Theorem concat_flattening (W : Z) (l1 l2 l3 : list document) (d : document) :
  pretty_print W (concat_t (l1 ++ concat_t l2 :: l3))
  = pretty_print W (concat_t (l1 ++ l2 ++ l3))
  /\ width (concat_t (l1 ++ concat_t l2 :: l3)) = width (concat_t (l1 ++ l2 ++ l3))
  /\ pretty_print W (concat_t [d]) = pretty_print W d
  /\ width (concat_t [d]) = width d.
Proof.
  assert (E : emitted (concat_t (l1 ++ concat_t l2 :: l3))
              = emitted (concat_t (l1 ++ l2 ++ l3))).
  { cbn [emitted]. rewrite !flat_map_app. cbn [flat_map emitted]. reflexivity. }
  assert (E1 : emitted (concat_t [d]) = emitted d) by (simpl; apply app_nil_r).
  repeat split.
  - now apply pretty_print_emitted.
  - now rewrite !width_flat_len, E.
  - now apply pretty_print_emitted.
  - now rewrite !width_flat_len, E1.
Qed.

(** ** The layout outside every group *)

Lemma broken_string_app n l1 l2 :
  broken_string n (l1 ++ l2) = (broken_string n l1 ++ broken_string n l2)%string.
Proof.
  induction l1 as [|e l1 IH]; simpl; [reflexivity|]. now rewrite IH, sapp_assoc.
Qed.

Lemma broken_string_forget n l : broken_string n (map forget l) = broken_string n l.
Proof.
  induction l as [|e l IH]; [reflexivity|]. simpl. rewrite IH.
  destruct e; reflexivity.
Qed.

Lemma broken_string_corrected n p doc :
  broken_string n (corrected p doc) = broken_string n (emitted doc).
Proof. now rewrite <- (forget_corrected doc p), broken_string_forget. Qed.

(** Outside every group a stream of texts and conditionals is laid out
    with every conditional broken. *)
Lemma broken_run l :
  forallb is_plain_element l = true ->
  Forall hpos_defined l ->
  forall v,
    fittingElements v = 0 ->
    exists v',
      feed output_visit l v = Done v'
      /\ fittingElements v' = 0
      /\ indent v' = indent v
      /\ out_width v' = out_width v
      /\ result v' = (result v ++ broken_string (currentIndent v) l)%string.
Proof.
  induction l as [|e l IH]; intros Hl Hh v Hf.
  - exists v. simpl. rewrite sapp_nil_r. auto.
  - simpl in Hl. apply andb_prop in Hl as [He Hl].
    inversion Hh as [|? ? He' Hh']; subst.
    destruct e as [t h|sm tl c h|h|h|h|h]; try discriminate.
    + rewrite feed_cons, output_visit_text, bind_Done.
      match goal with |- context [feed _ l ?v0] =>
        destruct (IH Hl Hh' v0 Hf) as (v' & Hrun & Hf' & Hi' & Hw' & Hs') end.
      exists v'. split; [exact Hrun|]. cbn [indent result out_width] in *.
      repeat split; auto. rewrite Hs'. unfold currentIndent. cbn [indent].
      cbn [broken_string broken_text]. now rewrite sapp_assoc.
    + destruct He' as [q Hq]. simpl in Hq. subst h.
      rewrite feed_cons. simpl output_visit. rewrite Hf. simpl Z.eqb. cbv iota.
      rewrite bind_Done. fold (currentIndent v).
      match goal with |- context [feed _ l ?v0] =>
        destruct (IH Hl Hh' v0 eq_refl) as (v' & Hrun & Hf' & Hi' & Hw' & Hs') end.
      exists v'. split; [exact Hrun|]. cbn [indent result out_width] in *.
      repeat split; auto. rewrite Hs'. unfold currentIndent at 2. cbn [indent].
      fold (currentIndent v). cbn [broken_string broken_text].
      now rewrite !sapp_assoc.
Qed.

(** X2.  A document without groups and nests is laid out the same at
    every page width: every conditional breaks, with no indentation. *)
Theorem group_free_layout (W : Z) (doc : document) :
  group_free doc = true ->
  pretty_print W doc = Done (broken_string 0 (emitted doc)).
Proof.
  intros Hg. rewrite pretty_print_feed.
  destruct (group_free_corrected doc 0 Hg) as [Hplain Hdef].
  destruct (broken_run _ Hplain Hdef (output_visitor (uint W)) eq_refl)
    as (v & -> & _ & _ & _ & Hs).
  rewrite bind_Done, Hs. unfold currentIndent, output_visitor.
  cbn [indent result append]. now rewrite broken_string_corrected.
Qed.

Lemma group_free_layout_witness :
  pretty_print 80 (concat_t [text_t "a"; cond_t " " "b" ";"; text_t "c"])
  = Done (broken_string 0
            (emitted (concat_t [text_t "a"; cond_t " " "b" ";"; text_t "c"]))).
Proof.
  apply (group_free_layout 80 (concat_t [text_t "a"; cond_t " " "b" ";"; text_t "c"])).
  reflexivity.
Defined.

(** ** Nothing is lost *)

Lemma lays_out_forget l s : lays_out l s -> lays_out (map forget l) s.
Proof.
  induction 1 as [|p h l s _ IH|sm tl c h l s _ IH|sm tl c h n l s _ IH|e l s He _ IH];
    simpl.
  - constructor.
  - now constructor.
  - now apply lays_out_flat.
  - now apply lays_out_break.
  - apply lays_out_skip; [destruct e; auto|exact IH].
Qed.

Lemma lays_out_run l :
  forall v v',
    feed output_visit l v = Done v' ->
    exists s, result v' = (result v ++ s)%string /\ lays_out l s.
Proof.
  induction l as [|e l IH]; intros v v' H.
  - simpl in H. injection H as <-. exists ""%string. rewrite sapp_nil_r.
    split; [reflexivity | constructor].
  - rewrite feed_cons in H.
    destruct (output_visit e v) as [va|] eqn:E; [|discriminate].
    rewrite bind_Done in H. destruct (IH va v' H) as (s & Hs & Hl).
    destruct e as [t h|sm tl c h|h|h|h|h]; simpl in E.
    + injection E as <-. simpl in Hs. exists (t ++ s)%string.
      rewrite Hs, sapp_assoc. split; [reflexivity | now constructor].
    + destruct (fittingElements v =? 0).
      * destruct h; [|discriminate]. injection E as <-. simpl in Hs.
        eexists. rewrite Hs, sapp_assoc. split; [reflexivity|].
        now apply lays_out_break.
      * injection E as <-. simpl in Hs. exists (sm ++ s)%string.
        rewrite Hs, sapp_assoc. split; [reflexivity | now apply lays_out_flat].
    + injection E as <-. exists s. split; [exact Hs | now apply lays_out_skip].
    + destruct (indent v); [discriminate|]. injection E as <-.
      exists s. split; [exact Hs | now apply lays_out_skip].
    + exists s. split; [|now apply lays_out_skip].
      destruct (negb (fittingElements v =? 0)); [injection E as <-; exact Hs|].
      destruct h; [|discriminate].
      destruct (uint z <=? rightEdge v); injection E as <-; exact Hs.
    + exists s. split; [|now apply lays_out_skip].
      destruct (negb (fittingElements v =? 0)); injection E as <-; exact Hs.
Qed.

(** X3.  The layout of a document keeps every piece of it, in order, and
    adds nothing else: it is the payloads of the texts and, for every
    conditional, either its [small] or its [tail], a newline, spaces and
    its [cont]. *)
Theorem text_preserved (W : Z) (doc : document) :
  exists s, pretty_print W doc = Done s /\ lays_out (emitted doc) s.
Proof.
  rewrite pretty_print_feed.
  destruct (output_corrected_done doc 0 (output_visitor (uint W))) as (v & Hrun & _).
  rewrite Hrun. exists (result v). split; [reflexivity|].
  destruct (lays_out_run _ _ _ Hrun) as (s & Hs & Hl). simpl in Hs. subst.
  rewrite <- (forget_corrected doc 0). now apply lays_out_forget.
Qed.

(** ** Where the output visitor leaves its precondition *)

Lemma output_visit_nesting e v :
  hpos_defined e ->
  match e with
  | nend_element_t _ =>
      match indent v with
      | [] => output_visit e v = Crash pop_of_empty
      | _ :: rest => exists v', output_visit e v = Done v' /\ indent v' = rest
      end
  | nbeg_element_t _ =>
      exists v', output_visit e v = Done v' /\ indent v' = out_hpos v :: indent v
  | _ => exists v', output_visit e v = Done v' /\ indent v' = indent v
  end.
Proof.
  intros Hh. destruct e as [t h|sm tl c h|h|h|h|h]; simpl.
  - eexists. split; reflexivity.
  - destruct Hh as [q Hq]. simpl in Hq. subst h.
    destruct (fittingElements v =? 0); eexists; split; reflexivity.
  - eexists. split; reflexivity.
  - destruct (indent v); [reflexivity|]. eexists. split; reflexivity.
  - destruct Hh as [q Hq]. simpl in Hq. subst h.
    destruct (negb (fittingElements v =? 0)); [eexists; split; reflexivity|].
    destruct (uint q <=? rightEdge v); eexists; split; reflexivity.
  - destruct (negb (fittingElements v =? 0)); eexists; split; reflexivity.
Qed.

(** X4.  On a stream in which every element but the nest begins has its
    [hpos], the one call outside its precondition that the output visitor
    can reach is [indent.pop_back()] on an empty [indent].  When every
    [nend_element_t] of the stream has a nest open, the visitor runs to
    the end, also when the groups are not balanced; otherwise the run
    arrives at a [nend_element_t] with [indent] empty. *)
Theorem output_visitor_pop_back (l : list stream_element_t) (v : output_visitor_t) :
  Forall hpos_defined l ->
  (nests_closed (List.length (indent v)) l = true ->
   exists v', feed output_visit l v = Done v')
  /\ (nests_closed (List.length (indent v)) l = false ->
      exists l1 h l2 v1,
        l = l1 ++ nend_element_t h :: l2
        /\ feed output_visit l1 v = Done v1
        /\ indent v1 = []).
Proof.
  intros Hl. revert v. induction Hl as [|e l He _ IH]; intros v.
  - simpl. split; [eauto | discriminate].
  - pose proof (output_visit_nesting e v He) as Hstep.
    assert (Hnext : forall v1,
               output_visit e v = Done v1 ->
               (nests_closed (List.length (indent v1)) l = true ->
                exists v', feed output_visit (e :: l) v = Done v')
               /\ (nests_closed (List.length (indent v1)) l = false ->
                   exists l1 h l2 v2,
                     e :: l = l1 ++ nend_element_t h :: l2
                     /\ feed output_visit l1 v = Done v2
                     /\ indent v2 = [])).
    { intros v1 E. destruct (IH v1) as [IHt IHf]. split.
      - intros H. rewrite feed_cons, E, bind_Done. apply IHt, H.
      - intros H. destruct (IHf H) as (l1 & h & l2 & v2 & -> & Hrun & Hi).
        exists (e :: l1), h, l2, v2. split; [reflexivity|].
        split; [|exact Hi]. now rewrite feed_cons, E, bind_Done. }
    destruct e as [t h|sm tl c h|h|h|h|h]; cbn [nests_closed];
      try (destruct Hstep as (v1 & E & Hi); specialize (Hnext v1 E);
           rewrite Hi in Hnext; exact Hnext).
    destruct (indent v) as [|i rest] eqn:Ei; cbn [List.length].
    + split; [discriminate|]. intros _.
      exists [], h, l, v. split; [reflexivity|]. split; [reflexivity | exact Ei].
    + destruct Hstep as (v1 & E & Hi). specialize (Hnext v1 E).
      rewrite Hi in Hnext. exact Hnext.
Qed.

Lemma output_visitor_pop_back_witness :
  (nests_closed (List.length (indent (output_visitor 5)))
     [gend_element_t (Some 0); nend_element_t (Some 0)] = true ->
   exists v',
     feed output_visit [gend_element_t (Some 0); nend_element_t (Some 0)]
       (output_visitor 5) = Done v')
  /\ (nests_closed (List.length (indent (output_visitor 5)))
        [gend_element_t (Some 0); nend_element_t (Some 0)] = false ->
      exists l1 h l2 v1,
        [gend_element_t (Some 0); nend_element_t (Some 0)]
        = l1 ++ nend_element_t h :: l2
        /\ feed output_visit l1 (output_visitor 5) = Done v1
        /\ indent v1 = []).
Proof.
  apply (output_visitor_pop_back
           [gend_element_t (Some 0); nend_element_t (Some 0)] (output_visitor 5)).
  repeat constructor; simpl; eauto.
Defined.

(** ** Where the corrector leaves its precondition *)

Lemma feed_total {S} (fn : thunk_t S) :
  total_thunk fn -> forall l s, exists s', feed fn l s = Done s'.
Proof.
  intros Hfn l. induction l as [|e l IH]; intros s; [eexists; reflexivity|].
  rewrite feed_cons. destruct (Hfn e s) as [s1 ->]. rewrite bind_Done. apply IH.
Qed.

Lemma total_record : total_thunk record.
Proof. intros e s. eexists. reflexivity. Qed.




Lemma correct_visit_depth {S} (fn : thunk_t S) e v :
  total_thunk fn ->
  well_annotated e = true ->
  match e with
  | gend_element_t _ =>
      match lookahead v with
      | [] => correct_visit fn e v = Crash back_of_empty
      | _ :: rest =>
          exists v', correct_visit fn e v = Done v'
                     /\ List.length (lookahead v') = List.length rest
      end
  | gbeg_element_t _ =>
      exists v', correct_visit fn e v = Done v'
                 /\ List.length (lookahead v') = Datatypes.S (List.length (lookahead v))
  | _ =>
      exists v', correct_visit fn e v = Done v'
                 /\ List.length (lookahead v') = List.length (lookahead v)
  end.
Proof.
  intros Hfn Hw.
  assert (Hpush : forall e, exists v', maybe_push fn e v = Done v'
                    /\ List.length (lookahead v') = List.length (lookahead v)).
  { intros e0. unfold maybe_push. destruct (lookahead v) as [|b rest].
    - destruct (Hfn e0 (correct_fn v)) as [s1 ->]. eexists. split; reflexivity.
    - eexists. split; reflexivity. }
  destruct e as [t h|sm tl c h|h|h|h|h]; simpl in Hw; simpl correct_visit;
    rewrite ?Hw; simpl guarantee; rewrite ?bind_Done; try apply Hpush.
  - eexists. split; reflexivity.
  - destruct (lookahead v) as [|b [|b2 rest]].
    + reflexivity.
    + destruct (Hfn (gbeg_element_t h) (correct_fn v)) as [s1 ->]. rewrite bind_Done.
      destruct (feed_total fn Hfn b s1) as [s2 ->]. rewrite bind_Done.
      destruct (Hfn (gend_element_t h) s2) as [s3 ->]. eexists. split; reflexivity.
    + eexists. split; reflexivity.
Qed.

(** X6.  On a stream annotated as the corrector's [guarantee] calls ask
    (an [hpos] on texts, conditionals, nest ends and group ends, none on
    nest begins and group begins), in front of a thunk that never fails,
    the one call outside its precondition that the corrector can reach is
    [lookahead.back()] on an empty [lookahead].  When every
    [gend_element_t] of the stream has a group open, the corrector runs to
    the end; otherwise the run arrives at a [gend_element_t] with
    [lookahead] empty. *)
Theorem corrector_back_of_empty
  {S : Type} (fn : thunk_t S) (l : list stream_element_t)
  (v : correct_gbeg_visitor_t S) :
  total_thunk fn ->
  forallb well_annotated l = true ->
  (groups_closed (List.length (lookahead v)) l = true ->
   exists v', feed (correct_visit fn) l v = Done v')
  /\ (groups_closed (List.length (lookahead v)) l = false ->
      exists l1 h l2 v1,
        l = l1 ++ gend_element_t h :: l2
        /\ feed (correct_visit fn) l1 v = Done v1
        /\ lookahead v1 = []).
Proof.
  intros Hfn. revert v. induction l as [|e l IH]; intros v Hl.
  - simpl. split; [eauto | discriminate].
  - simpl in Hl. apply andb_prop in Hl as [He Hl].
    pose proof (correct_visit_depth fn e v Hfn He) as Hstep.
    assert (Hnext : forall v1,
               correct_visit fn e v = Done v1 ->
               (groups_closed (List.length (lookahead v1)) l = true ->
                exists v', feed (correct_visit fn) (e :: l) v = Done v')
               /\ (groups_closed (List.length (lookahead v1)) l = false ->
                   exists l1 h l2 v2,
                     e :: l = l1 ++ gend_element_t h :: l2
                     /\ feed (correct_visit fn) l1 v = Done v2
                     /\ lookahead v2 = [])).
    { intros v1 E. destruct (IH v1 Hl) as [IHt IHf]. split.
      - intros H. rewrite feed_cons, E, bind_Done. apply IHt, H.
      - intros H. destruct (IHf H) as (l1 & h & l2 & v2 & -> & Hrun & Hi).
        exists (e :: l1), h, l2, v2. split; [reflexivity|].
        split; [|exact Hi]. now rewrite feed_cons, E, bind_Done. }
    destruct e as [t h|sm tl c h|h|h|h|h]; cbn [groups_closed];
      try (destruct Hstep as (v1 & E & Hd); specialize (Hnext v1 E);
           rewrite Hd in Hnext; exact Hnext).
    destruct (lookahead v) as [|b rest] eqn:Ei; cbn [List.length].
    + split; [discriminate|]. intros _.
      exists [], h, l, v. split; [reflexivity|]. split; [reflexivity | exact Ei].
    + destruct Hstep as (v1 & E & Hd). specialize (Hnext v1 E).
      rewrite Hd in Hnext. exact Hnext.
Qed.

Lemma corrector_back_of_empty_witness :
  (groups_closed (List.length (lookahead (correct_gbeg_stream (@nil stream_element_t))))
     [text_element_t "a" (Some 1); gend_element_t (Some 1)] = true ->
   exists v',
     feed (correct_visit record)
       [text_element_t "a" (Some 1); gend_element_t (Some 1)]
       (correct_gbeg_stream (@nil stream_element_t)) = Done v')
  /\ (groups_closed (List.length (lookahead (correct_gbeg_stream (@nil stream_element_t))))
        [text_element_t "a" (Some 1); gend_element_t (Some 1)] = false ->
      exists l1 h l2 v1,
        [text_element_t "a" (Some 1); gend_element_t (Some 1)]
        = l1 ++ gend_element_t h :: l2
        /\ feed (correct_visit record) l1
             (correct_gbeg_stream (@nil stream_element_t)) = Done v1
        /\ lookahead v1 = []).
Proof.
  apply (corrector_back_of_empty record
           [text_element_t "a" (Some 1); gend_element_t (Some 1)]
           (correct_gbeg_stream (@nil stream_element_t))).
  - exact total_record.
  - reflexivity.
Defined.

(** Inside a group that the stream never closes, the corrector only
    buffers. *)
Lemma correct_withholds {S} (fn : thunk_t S) l :
  forallb well_annotated l = true ->
  forall v,
    lookahead v <> [] ->
    group_end (Nat.pred (List.length (lookahead v))) l = None ->
    exists buffers,
      feed (correct_visit fn) l v = Done (mk_correct buffers (correct_fn v))
      /\ buffers <> [].
Proof.
  induction l as [|e l IH]; intros Hl v Hne Hend.
  - destruct v as [bufs s]. exists bufs. split; [reflexivity | exact Hne].
  - simpl in Hl. apply andb_prop in Hl as [He Hl]. rewrite feed_cons.
    destruct v as [[|b rest] s]; [contradiction|]. cbn [lookahead List.length Nat.pred] in Hend.
    assert (Hpush : forall e0,
               is_begin e0 = false \/ e0 = nbeg_element_t None ->
               group_end (List.length rest) (e0 :: l)
               = option_map Datatypes.S (group_end (List.length rest) l) ->
               group_end (List.length rest) (e0 :: l) = None ->
               exists buffers,
                 (v' <- maybe_push fn e0 (mk_correct (b :: rest) s) ;;
                  feed (correct_visit fn) l v')
                 = Done (mk_correct buffers s) /\ buffers <> []).
    { intros e0 _ Hg Hn. unfold maybe_push. cbn [lookahead correct_fn].
      rewrite bind_Done. rewrite Hg in Hn.
      destruct (group_end (List.length rest) l) eqn:E; [discriminate|].
      apply (IH Hl (mk_correct ((b ++ [e0]) :: rest) s)); [discriminate | exact E]. }
    destruct e as [t h|sm tl c h|h|h|h|h]; simpl in He; simpl correct_visit;
      rewrite ?He; simpl guarantee; rewrite ?bind_Done.
    + apply Hpush; auto.
    + apply Hpush; auto.
    + destruct h; [discriminate|]. apply Hpush; auto.
    + apply Hpush; auto.
    + cbn [lookahead correct_fn]. cbn [group_end] in Hend.
      destruct (group_end (Datatypes.S (List.length rest)) l) eqn:E; [discriminate|].
      apply (IH Hl (mk_correct ([] :: b :: rest) s)); [discriminate | exact E].
    + cbn [lookahead correct_fn]. cbn [group_end] in Hend.
      destruct rest as [|b2 rest']; [discriminate|]. cbn [List.length] in Hend.
      rewrite bind_Done.
      destruct (group_end (List.length rest') l) eqn:E; [discriminate|].
      apply (IH Hl (mk_correct _ s)); [discriminate | exact E].
Qed.

(** X7.  The corrector hands nothing of a group on before the group has
    closed: on a stream that opens a group and never closes it, the thunk
    behind the corrector is not called at all, whatever follows the
    begin. *)
Theorem unclosed_group_withheld
  {S : Type} (fn : thunk_t S) (s : S) (l : list stream_element_t) :
  forallb well_annotated l = true ->
  group_end 0 l = None ->
  exists buffers,
    feed (correct_visit fn) (gbeg_element_t None :: l) (correct_gbeg_stream s)
    = Done (mk_correct buffers s)
    /\ buffers <> [].
Proof.
  intros Hl Hend. rewrite feed_cons. simpl correct_visit. rewrite bind_Done.
  apply (correct_withholds fn l Hl (mk_correct [[]] s)); [discriminate | exact Hend].
Qed.

Lemma unclosed_group_withheld_witness :
  exists buffers,
    feed (correct_visit record)
      (gbeg_element_t None
         :: [text_element_t "a" (Some 1); gbeg_element_t None;
             text_element_t "b" (Some 2); gend_element_t (Some 2);
             text_element_t "c" (Some 3)])
      (correct_gbeg_stream [])
    = Done (mk_correct buffers [])
    /\ buffers <> [].
Proof.
  apply (unclosed_group_withheld record []
           [text_element_t "a" (Some 1); gbeg_element_t None;
            text_element_t "b" (Some 2); gend_element_t (Some 2);
            text_element_t "c" (Some 3)]).
  - reflexivity.
  - reflexivity.
Defined.

(** ** The annotator alone *)

Lemma forget_annotated p l : map forget (annotated p l) = map forget l.
Proof.
  revert p. induction l as [|e l IH]; intros p; [reflexivity|]. simpl.
  destruct e; simpl; now rewrite IH.
Qed.

Lemma annotate_element_again p e :
  annotate_element p (fst (annotate_element p e))
  = annotate_element p e.
Proof. destruct e; reflexivity. Qed.

Lemma annotated_again l : forall p, annotated p (annotated p l) = annotated p l.
Proof.
  induction l as [|e l IH]; intros p; [reflexivity|]. simpl.
  pose proof (annotate_element_again p e) as H.
  destruct (annotate_element p e) as [e' p'] eqn:E. simpl in H. simpl.
  rewrite H. now rewrite IH.
Qed.

Lemma hpos_annotated l :
  forall p, Forall (fun e => is_begin e = false -> exists q, hpos_of e = Some q)
              (annotated p l).
Proof.
  induction l as [|e l IH]; intros p; [constructor|]. simpl.
  pose proof (annotate_element_hpos p e) as Hh.
  pose proof (annotate_element_begin p e) as Hb.
  destruct (annotate_element p e) as [e' p']. simpl in *.
  constructor; [|apply IH]. intros He. rewrite Hb in He. eauto.
Qed.

(** X8.  The annotator never fails and forwards one element for each one
    it gets, with the same payload and in the same order; it ends at the
    flat width of the stream; every element it forwards that is not a
    begin has an [hpos]; and it overwrites the [hpos] it finds, so
    annotating an annotated stream changes nothing. *)
Theorem annotator_alone (l : list stream_element_t) :
  exists la,
    feed (annotate_visit record) l (annotate_stream [])
    = Done (mk_annotate (flat_width l) la)
    /\ map forget la = map forget l
    /\ Forall (fun e => is_begin e = false -> exists q, hpos_of e = Some q) la
    /\ feed (annotate_visit record) la (annotate_stream [])
       = Done (mk_annotate (flat_width l) la).
Proof.
  assert (H : forall l0, feed (annotate_visit record) l0 (annotate_stream [])
                         = Done (mk_annotate (flat_width l0) (annotated 0 l0))).
  { intros l0. unfold annotate_stream. rewrite annotate_feed, feed_record.
    simpl. rewrite position_after_flat_len by reflexivity. reflexivity. }
  exists (annotated 0 l). split; [apply H|]. split; [apply forget_annotated|].
  split; [apply hpos_annotated|].
  rewrite H, annotated_again. unfold flat_width, flat_len.
  now rewrite flat_string_annotated.
Qed.

(** ** The chain in front of any thunk *)

(** X9.  The stages compose: whatever thunk stands behind the corrector,
    the chain calls it on the same elements, those of the corrected
    stream, in order, and stops at its first failure; when it has run,
    the annotator stands at the document's [width] and the corrector has
    nothing left in [lookahead]. *)
Theorem chain_into_any_thunk (doc : document) :
  exists lc,
    corrected_stream doc = Done lc
    /\ forall (S : Type) (fn : thunk_t S) (s : S),
        generate_stream (annotate_visit (correct_visit fn)) doc
          (annotate_stream (correct_gbeg_stream s))
        = (s' <- feed fn lc s ;;
           Done (mk_annotate (width doc) (mk_correct [] s'))).
Proof.
  exists (corrected 0 doc). split; [apply corrected_stream_eq|].
  intros S fn s. apply chain_feed.
Qed.

(** ** Inside a group that fits *)

(** The state in which the output visitor leaves a document that it lays
    out flat. *)
Lemma flat_run_exact doc :
  forall p v,
    0 < fittingElements v -> fittingElements v + nesting doc < uint_max ->
    uint (out_hpos v) = out_hpos v ->
    feed output_visit (corrected p doc) v
    = Done (mk_output (out_width v) (fittingElements v) (rightEdge v)
              (uint (out_hpos v + flat_len (emitted doc))) (indent v)
              (result v ++ flat_string (emitted doc))%string).
Proof.
  induction doc as [t|sm c tl|ds IH|d IH|d IH] using document_ind;
    intros p v Hf Hn Hh.
  - rewrite flat_len_text. simpl. now rewrite sapp_nil_r.
  - rewrite flat_len_cond. simpl corrected. rewrite feed_cons, cond_flat_step by lia.
    simpl. now rewrite sapp_nil_r.
  - rewrite corrected_concat. simpl emitted. simpl nesting in Hn. revert p v Hf Hn Hh.
    induction IH as [|d ds Hd _ IHds]; intros p v Hf Hn Hh.
    + simpl. unfold flat_len. simpl. rewrite Z.add_0_r, Hh, sapp_nil_r.
      destruct v; reflexivity.
    + simpl in Hn. rewrite corrected_children_cons, feed_app.
      rewrite Hd by (try assumption; lia). rewrite bind_Done.
      rewrite IHds by (cbn [fittingElements out_hpos]; try apply uint_idem; lia).
      cbn [out_width fittingElements rightEdge out_hpos indent result].
      simpl flat_map. rewrite flat_len_app, flat_string_app, uint_add_l, sapp_assoc.
      now rewrite Z.add_assoc.
  - rewrite flat_string_group, flat_len_group. simpl corrected. simpl nesting in Hn.
    pose proof (nesting_nonneg d) as Hd.
    assert (E : uint (fittingElements v + 1) = fittingElements v + 1)
      by (apply uint_small; lia).
    rewrite feed_cons, output_visit_gbeg_inside, bind_Done, E by lia.
    rewrite feed_app, IH by (cbn [fittingElements out_hpos]; try assumption; lia).
    cbn [out_width fittingElements rightEdge out_hpos indent result].
    rewrite bind_Done, feed_cons, output_visit_gend_inside
      by (cbn [fittingElements]; lia).
    cbn [out_width fittingElements rightEdge out_hpos indent result feed bind].
    replace (fittingElements v + 1 - 1) with (fittingElements v) by lia.
    rewrite (uint_small (fittingElements v)) by lia. reflexivity.
  - rewrite flat_string_nest, flat_len_nest. simpl corrected. simpl nesting in Hn.
    pose proof (nesting_nonneg d) as Hd.
    assert (E : uint (fittingElements v + 1) = fittingElements v + 1)
      by (apply uint_small; lia).
    rewrite feed_cons, output_visit_nbeg, bind_Done.
    rewrite feed_cons, output_visit_gbeg_inside, bind_Done by (cbn [fittingElements]; lia).
    cbn [out_width fittingElements rightEdge out_hpos indent result]. rewrite E.
    rewrite feed_app, IH by (cbn [fittingElements out_hpos]; try assumption; lia).
    cbn [out_width fittingElements rightEdge out_hpos indent result].
    rewrite bind_Done, feed_cons, output_visit_gend_inside, bind_Done
      by (cbn [fittingElements]; lia).
    cbn [out_width fittingElements rightEdge out_hpos indent result].
    rewrite feed_cons.
    erewrite output_visit_nend by (cbn [indent]; reflexivity).
    cbn [out_width fittingElements rightEdge out_hpos indent result feed bind].
    replace (fittingElements v + 1 - 1) with (fittingElements v) by lia.
    rewrite (uint_small (fittingElements v)) by lia. reflexivity.
Qed.

(** X10.  Inside a group that fits, a [group_t] or a [nest_t] around a
    document changes nothing: the output visitor ends in the same state as
    on the document itself, having put out the document's flat text and
    moved the column by its length. *)
Theorem group_and_nest_transparent_when_flat
  (doc : document) (p : Z) (v : output_visitor_t) :
  0 < fittingElements v ->
  fittingElements v + nesting doc + 1 < uint_max ->
  uint (out_hpos v) = out_hpos v ->
  feed output_visit (corrected p (group_t doc)) v
  = feed output_visit (corrected p doc) v
  /\ feed output_visit (corrected p (nest_t doc)) v
     = feed output_visit (corrected p doc) v
  /\ exists v',
      feed output_visit (corrected p doc) v = Done v'
      /\ result v' = (result v ++ flat_string (emitted doc))%string
      /\ out_hpos v' = uint (out_hpos v + flat_len (emitted doc))
      /\ fittingElements v' = fittingElements v
      /\ indent v' = indent v
      /\ rightEdge v' = rightEdge v.
Proof.
  intros Hf Hn Hh. pose proof (nesting_nonneg doc) as Hd.
  rewrite !flat_run_exact by (try assumption; simpl nesting; lia).
  rewrite flat_string_group, flat_len_group, flat_string_nest, flat_len_nest.
  split; [reflexivity|]. split; [reflexivity|].
  eexists. split; [reflexivity|]. simpl. auto.
Qed.

Lemma group_and_nest_transparent_when_flat_witness :
  feed output_visit (corrected 0 (group_t br)) (mk_output 80 1 80 0 [] "")
  = feed output_visit (corrected 0 br) (mk_output 80 1 80 0 [] "")
  /\ feed output_visit (corrected 0 (nest_t br)) (mk_output 80 1 80 0 [] "")
     = feed output_visit (corrected 0 br) (mk_output 80 1 80 0 [] "")
  /\ exists v',
      feed output_visit (corrected 0 br) (mk_output 80 1 80 0 [] "") = Done v'
      /\ result v' = (result (mk_output 80 1 80 0 [] "")
                      ++ flat_string (emitted br))%string
      /\ out_hpos v' = uint (out_hpos (mk_output 80 1 80 0 [] "")
                             + flat_len (emitted br))
      /\ fittingElements v' = fittingElements (mk_output 80 1 80 0 [] "")
      /\ indent v' = indent (mk_output 80 1 80 0 [] "")
      /\ rightEdge v' = rightEdge (mk_output 80 1 80 0 [] "").
Proof.
  apply (group_and_nest_transparent_when_flat br 0 (mk_output 80 1 80 0 [] "")).
  - reflexivity.
  - reflexivity.
  - reflexivity.
Defined.

(** ** Groups *)

(** What the two group elements do to the counter of fitting groups. *)
Lemma edge_free_gbeg q v :
  0 <= fittingElements v -> fittingElements v + 1 < uint_max ->
  exists v',
    output_visit (gbeg_element_t (Some q)) v = Done v'
    /\ 0 <= fittingElements v' <= fittingElements v + 1
    /\ (fittingElements v = 0 \/ fittingElements v' = fittingElements v + 1).
Proof.
  intros Hf Hlt. destruct (Z.eqb_spec (fittingElements v) 0) as [E|E].
  - rewrite output_visit_gbeg_outside by exact E. rewrite E.
    change (uint (0 + 1)) with 1. eexists. split; [reflexivity|].
    cbn [fittingElements]. destruct (uint q <=? rightEdge v); lia.
  - rewrite output_visit_gbeg_inside by exact E. eexists. split; [reflexivity|].
    cbn [fittingElements]. rewrite uint_small by lia. lia.
Qed.

Lemma edge_free_gend h v :
  0 <= fittingElements v -> fittingElements v < uint_max ->
  exists v',
    output_visit (gend_element_t h) v = Done v'
    /\ fittingElements v' = Z.max 0 (fittingElements v - 1).
Proof.
  intros Hf Hlt. destruct (Z.eqb_spec (fittingElements v) 0) as [E|E].
  - rewrite output_visit_gend_outside by exact E. exists v. split; [reflexivity | lia].
  - rewrite output_visit_gend_inside by exact E. eexists. split; [reflexivity|].
    cbn [fittingElements]. rewrite uint_small by lia. lia.
Qed.

(** Over a document the counter of fitting groups comes back to where it
    was. *)
Lemma fitting_preserved doc :
  forall p v v',
    0 <= fittingElements v -> fittingElements v + nesting doc < uint_max ->
    feed output_visit (corrected p doc) v = Done v' ->
    fittingElements v' = fittingElements v.
Proof.
  induction doc as [t|sm c tl|ds IH|d IH|d IH] using document_ind;
    intros p v v' Hf Hn Hrun.
  - simpl in Hrun. injection Hrun as <-. reflexivity.
  - simpl in Hrun. destruct (Z.eqb_spec (fittingElements v) 0) as [E|E];
      injection Hrun as <-; simpl; auto.
  - rewrite corrected_concat in Hrun. simpl nesting in Hn. revert p v Hf Hn Hrun.
    induction IH as [|d ds Hd _ IHds]; intros p v Hf Hn Hrun.
    + simpl in Hrun. now injection Hrun as <-.
    + simpl in Hn. rewrite corrected_children_cons, feed_app in Hrun.
      destruct (feed output_visit (corrected p d) v) as [v1|] eqn:E; [|discriminate].
      rewrite bind_Done in Hrun.
      pose proof (Hd p v v1 Hf ltac:(lia) E) as H1.
      rewrite <- H1. apply (IHds (position_after p (emitted d)) v1);
        [lia | lia | exact Hrun].
  - simpl corrected in Hrun. simpl nesting in Hn. pose proof (nesting_nonneg d) as Hd.
    set (q := position_after p (emitted d)) in *.
    destruct (edge_free_gbeg q v Hf ltac:(lia)) as (v1 & Hs1 & Hf1 & Hf1').
    rewrite feed_cons, Hs1, bind_Done, feed_app in Hrun.
    destruct (feed output_visit (corrected p d) v1) as [v2|] eqn:E; [|discriminate].
    rewrite bind_Done, feed_cons in Hrun.
    pose proof (IH p v1 v2 ltac:(lia) ltac:(lia) E) as H2.
    destruct (edge_free_gend (Some q) v2 ltac:(lia) ltac:(lia)) as (v3 & Hs3 & Hf3).
    rewrite Hs3 in Hrun. simpl in Hrun. injection Hrun as <-.
    rewrite Hf3, H2. lia.
  - simpl corrected in Hrun. simpl nesting in Hn. pose proof (nesting_nonneg d) as Hd.
    set (q := position_after p (emitted d)) in *.
    rewrite feed_cons, output_visit_nbeg, bind_Done in Hrun.
    match type of Hrun with context [feed _ _ ?v0] =>
      destruct (edge_free_gbeg q v0 Hf ltac:(cbn [fittingElements]; lia))
        as (v1 & Hs1 & Hf1 & Hf1') end.
    cbn [fittingElements] in Hf1, Hf1'.
    rewrite feed_cons, Hs1, bind_Done, feed_app in Hrun.
    destruct (feed output_visit (corrected p d) v1) as [v2|] eqn:E; [|discriminate].
    rewrite bind_Done, feed_cons in Hrun.
    pose proof (IH p v1 v2 ltac:(lia) ltac:(lia) E) as H2.
    destruct (edge_free_gend (Some q) v2 ltac:(lia) ltac:(lia)) as (v3 & Hs3 & Hf3).
    rewrite Hs3, bind_Done, feed_cons in Hrun.
    destruct (indent v3) as [|i rest] eqn:Ei; simpl in Hrun; rewrite Ei in Hrun;
      [discriminate|].
    simpl in Hrun. injection Hrun as <-. simpl. rewrite Hf3, H2. lia.
Qed.

Lemma position_after_group p d :
  position_after p (emitted (group_t d)) = position_after p (emitted d).
Proof. simpl. now rewrite position_after_app. Qed.

(** A group outside every fitting group: it is laid out flat when its end
    is within the right edge, and as if it were no group otherwise. *)
Lemma group_run p c v :
  fittingElements v = 0 ->
  nesting c + 1 < uint_max ->
  uint (out_hpos v) = out_hpos v ->
  feed output_visit (corrected p (group_t c)) v
  = if uint (position_after p (emitted c)) <=? rightEdge v
    then Done (mk_output (out_width v) 0 (rightEdge v)
                 (uint (out_hpos v + flat_len (emitted c))) (indent v)
                 (result v ++ flat_string (emitted c))%string)
    else feed output_visit (corrected p c) v.
Proof.
  intros Hf Hn Hh. pose proof (nesting_nonneg c) as Hd.
  simpl corrected. set (q := position_after p (emitted c)).
  rewrite feed_cons, output_visit_gbeg_outside, bind_Done, feed_app by exact Hf.
  rewrite Hf. change (uint (0 + 1)) with 1.
  destruct (uint q <=? rightEdge v).
  - rewrite flat_run_exact by (cbn [fittingElements out_hpos]; try assumption; lia).
    cbn [out_width fittingElements rightEdge out_hpos indent result].
    rewrite bind_Done, feed_cons, output_visit_gend_inside by (cbn [fittingElements]; lia).
    reflexivity.
  - destruct v as [w f r h i s]. cbn [fittingElements] in Hf. subst f.
    cbn [out_width fittingElements rightEdge out_hpos indent result].
    destruct (feed output_visit (corrected p c) (mk_output w 0 r h i s)) as [v1|] eqn:E;
      [|reflexivity].
    rewrite bind_Done, feed_cons.
    pose proof (fitting_preserved c p (mk_output w 0 r h i s) v1
                  ltac:(cbn [fittingElements]; lia)
                  ltac:(cbn [fittingElements]; lia) E) as H1.
    cbn [fittingElements] in H1.
    rewrite output_visit_gend_outside by exact H1. reflexivity.
Qed.

(** X11.  A group at the top of a document is laid out flat when its
    flat text is no longer than the page width, and otherwise the document
    is laid out as if the group were not there. *)
Theorem top_level_group (W : Z) (c : document) :
  0 <= W < uint_max ->
  flat_len (emitted c) < uint_max ->
  nesting c + 1 < uint_max ->
  pretty_print W (group_t c)
  = if flat_len (emitted c) <=? W
    then Done (flat_string (emitted c))
    else pretty_print W c.
Proof.
  intros HW Hlen Hn. pose proof (flat_len_nonneg (emitted c)) as HL.
  rewrite !pretty_print_feed, group_run by (try reflexivity; exact Hn).
  rewrite position_after_flat_len by reflexivity.
  rewrite Z.add_0_l, uint_idem, (uint_small (flat_len _)) by lia.
  cbn [output_visitor rightEdge]. rewrite (uint_small W) by lia.
  destruct (flat_len (emitted c) <=? W); reflexivity.
Qed.

Lemma top_level_group_witness :
  pretty_print 5 (group_t (concat_t [text_t "abc"; br; text_t "def"]))
  = if flat_len (emitted (concat_t [text_t "abc"; br; text_t "def"])) <=? 5
    then Done (flat_string (emitted (concat_t [text_t "abc"; br; text_t "def"])))
    else pretty_print 5 (concat_t [text_t "abc"; br; text_t "def"]).
Proof.
  apply (top_level_group 5 (concat_t [text_t "abc"; br; text_t "def"])).
  - unfold uint_max. lia.
  - reflexivity.
  - reflexivity.
Defined.

(** X12.  A group directly around a group is one group: from every state
    the output visitor can be in, it ends in the same state on both, and
    so the two documents have the same layout. *)
Theorem group_idempotent (W p : Z) (d : document) (v : output_visitor_t) :
  0 <= fittingElements v ->
  fittingElements v + nesting d + 2 < uint_max ->
  uint (out_hpos v) = out_hpos v ->
  feed output_visit (corrected p (group_t (group_t d))) v
  = feed output_visit (corrected p (group_t d)) v
  /\ pretty_print W (group_t (group_t d)) = pretty_print W (group_t d).
Proof.
  intros Hf Hn Hh. pose proof (nesting_nonneg d) as Hd.
  assert (Hfeed : forall p v,
             0 <= fittingElements v ->
             fittingElements v + nesting d + 2 < uint_max ->
             uint (out_hpos v) = out_hpos v ->
             feed output_visit (corrected p (group_t (group_t d))) v
             = feed output_visit (corrected p (group_t d)) v).
  { clear p v Hf Hn Hh. intros p v Hf Hn Hh.
    destruct (Z.eq_dec (fittingElements v) 0) as [E|E].
    - rewrite (group_run p (group_t d)) by (simpl nesting; try assumption; lia).
      rewrite position_after_group, flat_len_group, flat_string_group.
      rewrite (group_run p d) by (try assumption; lia).
      destruct (uint (position_after p (emitted d)) <=? rightEdge v); reflexivity.
    - rewrite !flat_run_exact by (simpl nesting; try assumption; lia).
      now rewrite !flat_len_group, !flat_string_group. }
  split; [now apply Hfeed|].
  rewrite !pretty_print_feed, Hfeed; [reflexivity | simpl; lia | simpl; lia |].
  reflexivity.
Qed.

Lemma group_idempotent_witness :
  feed output_visit (corrected 0 (group_t (group_t br))) (output_visitor 80)
  = feed output_visit (corrected 0 (group_t br)) (output_visitor 80)
  /\ pretty_print 0 (group_t (group_t br)) = pretty_print 0 (group_t br).
Proof.
  apply (group_idempotent 0 0 br (output_visitor 80)).
  - simpl. lia.
  - reflexivity.
  - reflexivity.
Defined.

(** ** The column *)

Lemma column_from_app s t start :
  column_from start (s ++ t) = column_from (column_from start s) t.
Proof. revert start. induction s as [|c s IH]; intros start; simpl; auto. Qed.

Lemma column_from_plain s start :
  count_newlines s = O -> column_from start s = start + size s.
Proof.
  revert start. induction s as [|c s IH]; intros start H.
  - unfold size. simpl. lia.
  - simpl in H. destruct (Ascii.eqb c newline) eqn:E; [discriminate|].
    simpl. rewrite E, IH by exact H. unfold size. simpl String.length.
    rewrite Nat2Z.inj_succ. lia.
Qed.

Lemma column_from_newline t start : column_from start (String newline t) = column_from 0 t.
Proof. reflexivity. Qed.

Lemma column_from_nonneg s : forall start, 0 <= start -> 0 <= column_from start s.
Proof.
  induction s as [|c s IH]; intros start H; simpl; [exact H|].
  apply IH. destruct (Ascii.eqb c newline); lia.
Qed.

Lemma output_visit_column e v v' :
  line_strings_ok e = true ->
  column_invariant v ->
  output_visit e v = Done v' ->
  column_invariant v'.
Proof.
  intros He [Hh Hi]. unfold column_invariant, column in *.
  destruct e as [t h|sm tl c h|h|h|h|h]; simpl in He; simpl.
  - apply Nat.eqb_eq in He. intros [= <-]. simpl. split; [|exact Hi].
    rewrite column_from_app, (column_from_plain t) by exact He.
    now rewrite Hh, uint_add_l.
  - apply andb_prop in He as [Hs Hc]. apply Nat.eqb_eq in Hs, Hc.
    destruct (fittingElements v =? 0).
    + destruct h; [|discriminate]. intros [= <-]. simpl. split; [|exact Hi].
      rewrite !column_from_app, column_from_newline, column_from_app.
      rewrite (column_from_plain c) by exact Hc.
      rewrite column_from_plain by apply count_newlines_spaces.
      rewrite Z.add_0_l. f_equal. f_equal.
      destruct (indent v) as [|i rest]; [reflexivity|].
      symmetry. apply spaces_size. now inversion Hi.
    + intros [= <-]. simpl. split; [|exact Hi].
      rewrite column_from_app, (column_from_plain sm) by exact Hs.
      now rewrite Hh, uint_add_l.
  - intros [= <-]. simpl. split; [exact Hh|]. constructor; [|exact Hi].
    rewrite Hh. apply uint_range.
  - destruct (indent v) as [|i rest]; [discriminate|]. intros [= <-]. simpl.
    split; [exact Hh | now inversion Hi].
  - destruct (negb (fittingElements v =? 0)); [intros [= <-]; simpl; auto|].
    destruct h; [|discriminate].
    destruct (uint z <=? rightEdge v); intros [= <-]; simpl; auto.
  - destruct (negb (fittingElements v =? 0)); intros [= <-]; simpl; auto.
Qed.

Lemma feed_column l :
  forallb line_strings_ok l = true ->
  forall v v',
    column_invariant v -> feed output_visit l v = Done v' -> column_invariant v'.
Proof.
  induction l as [|e l IH]; intros Hl v v' Hv Hrun.
  - simpl in Hrun. now injection Hrun as <-.
  - simpl in Hl. apply andb_prop in Hl as [He Hl]. rewrite feed_cons in Hrun.
    destruct (output_visit e v) as [v1|] eqn:E; [|discriminate].
    rewrite bind_Done in Hrun. apply (IH Hl v1 v'); [|exact Hrun].
    eapply output_visit_column; eauto.
Qed.

Lemma line_strings_ok_forget e : line_strings_ok (forget e) = line_strings_ok e.
Proof. destruct e; reflexivity. Qed.

(** X13.  When no text, [small] or [cont] of the document holds a
    newline, the output visitor's [hpos] is, at the end of the layout, the
    column of the cursor in the output: the number of characters after the
    last newline, as an [unsigned int]. *)
Theorem hpos_is_column (W : Z) (doc : document) :
  forallb line_strings_ok (emitted doc) = true ->
  exists lc v,
    corrected_stream doc = Done lc
    /\ feed output_visit lc (output_visitor (uint W)) = Done v
    /\ pretty_print W doc = Done (result v)
    /\ out_hpos v = uint (column (result v)).
Proof.
  intros Hl.
  destruct (output_corrected_done doc 0 (output_visitor (uint W))) as (v & Hrun & _).
  exists (corrected 0 doc), v. split; [apply corrected_stream_eq|].
  split; [exact Hrun|]. split; [now rewrite pretty_print_feed, Hrun|].
  rewrite <- (forallb_forget _ doc 0 line_strings_ok_forget) in Hl.
  apply (feed_column _ Hl (output_visitor (uint W)) v); [|exact Hrun].
  split; [reflexivity | constructor].
Qed.

Lemma hpos_is_column_witness :
  exists lc v,
    corrected_stream (funcall "f" [text_t "a"; text_t "b"]) = Done lc
    /\ feed output_visit lc (output_visitor (uint 3)) = Done v
    /\ pretty_print 3 (funcall "f" [text_t "a"; text_t "b"]) = Done (result v)
    /\ out_hpos v = uint (column (result v)).
Proof.
  apply (hpos_is_column 3 (funcall "f" [text_t "a"; text_t "b"])). reflexivity.
Defined.

(** ** The test of a group against the right edge *)

(** On a stream whose [cont]s are no longer than the [small]s and which
    stays below [2^32], [hpos] does not wrap: it is the column itself. *)
Lemma column_exact_step e v v1 p :
  line_strings_ok e = true ->
  cont_short e = true ->
  out_hpos v = column (result v) ->
  0 <= out_hpos v <= p ->
  Forall (fun i => 0 <= i <= p) (indent v) ->
  p + size (flat_text e) < uint_max ->
  output_visit e v = Done v1 ->
  out_hpos v1 = column (result v1)
  /\ 0 <= out_hpos v1 <= p + size (flat_text e)
  /\ Forall (fun i => 0 <= i <= p + size (flat_text e)) (indent v1).
Proof.
  intros Hn He Hc Hh Hi Hlen E. unfold column in *.
  pose proof (size_nonneg (flat_text e)) as Hs0.
  assert (Hi' : Forall (fun i => 0 <= i <= p + size (flat_text e)) (indent v))
    by (eapply anchors_within; [|exact Hi]; lia).
  assert (Hci : 0 <= hd 0 (indent v) <= p).
  { destruct (indent v) as [|i rest]; cbn [hd]; [lia|]. now inversion Hi. }
  destruct e as [t h|sm tl c h|h|h|h|h]; cbn [flat_text line_strings_ok] in *.
  - apply Nat.eqb_eq in Hn. rewrite output_visit_text in E. injection E as <-.
    cbn [out_hpos indent result]. rewrite (uint_small (out_hpos v + size t)) by lia.
    split; [|split; [lia | exact Hi']].
    now rewrite column_from_app, (column_from_plain t), Hc.
  - apply andb_prop in Hn as [Hsm Hcn]. apply Nat.eqb_eq in Hsm, Hcn.
    cbn [cont_short] in He. apply Z.leb_le in He.
    pose proof (size_nonneg c) as Hc0.
    cbn [output_visit] in E.
    destruct (Z.eqb_spec (fittingElements v) 0) as [Hf|Hf].
    + destruct h as [q|]; [|discriminate]. cbv zeta in E. injection E as <-.
      replace (match indent v with [] => 0 | i :: _ => i end)
        with (hd 0 (indent v)) by (destruct (indent v); reflexivity).
      cbn [out_hpos indent result].
      rewrite (uint_small (hd 0 (indent v) + size c)) by lia.
      split; [|split; [lia | exact Hi']].
      rewrite !column_from_app, column_from_newline, column_from_app.
      rewrite (column_from_plain c) by exact Hcn.
      rewrite column_from_plain by apply count_newlines_spaces.
      rewrite spaces_size by lia. lia.
    + injection E as <-. cbn [out_hpos indent result].
      rewrite (uint_small (out_hpos v + size sm)) by lia.
      split; [|split; [lia | exact Hi']].
      now rewrite column_from_app, (column_from_plain sm), Hc.
  - rewrite output_visit_nbeg in E. injection E as <-.
    cbn [out_hpos indent result]. change (size "") with 0. rewrite Z.add_0_r.
    split; [exact Hc|]. split; [lia | constructor; assumption].
  - cbn [output_visit] in E. destruct (indent v) as [|i rest] eqn:Ei; [discriminate|].
    injection E as <-. cbn [out_hpos indent result]. change (size "") with 0.
    rewrite Z.add_0_r. split; [exact Hc|]. split; [lia | now inversion Hi].
  - assert (Hsame : out_hpos v1 = out_hpos v /\ indent v1 = indent v
                    /\ result v1 = result v).
    { cbn [output_visit] in E.
      destruct (negb (fittingElements v =? 0)); [now injection E as <-|].
      destruct h as [q|]; [|discriminate].
      destruct (uint q <=? rightEdge v); now injection E as <-. }
    destruct Hsame as (-> & -> & ->). change (size "") with 0. rewrite Z.add_0_r.
    split; [exact Hc|]. split; [lia | exact Hi].
  - assert (Hsame : out_hpos v1 = out_hpos v /\ indent v1 = indent v
                    /\ result v1 = result v).
    { cbn [output_visit] in E.
      destruct (negb (fittingElements v =? 0)); now injection E as <-. }
    destruct Hsame as (-> & -> & ->). change (size "") with 0. rewrite Z.add_0_r.
    split; [exact Hc|]. split; [lia | exact Hi].
Qed.

Lemma column_exact_run lc :
  forall p v v',
    forallb line_strings_ok lc = true ->
    forallb cont_short lc = true ->
    out_hpos v = column (result v) ->
    0 <= out_hpos v <= p ->
    Forall (fun i => 0 <= i <= p) (indent v) ->
    p + flat_len lc < uint_max ->
    feed output_visit lc v = Done v' ->
    out_hpos v' = column (result v').
Proof.
  induction lc as [|e l IH]; intros p v v' Hn Hcs Hc Hh Hi Hlen Hrun.
  - simpl in Hrun. now injection Hrun as <-.
  - rewrite feed_cons in Hrun.
    destruct (output_visit e v) as [v1|f] eqn:E; [|discriminate].
    rewrite bind_Done in Hrun.
    cbn [forallb] in Hn, Hcs.
    apply andb_prop in Hn as [Hne Hn]. apply andb_prop in Hcs as [He Hcs].
    rewrite flat_len_cons in Hlen.
    pose proof (flat_len_nonneg l) as Hl0.
    destruct (column_exact_step e v v1 p Hne He Hc Hh Hi ltac:(lia) E)
      as (Hc1 & Hh1 & Hi1).
    apply (IH (p + size (flat_text e)) v1 v' Hn Hcs Hc1 Hh1 Hi1 ltac:(lia) Hrun).
Qed.

(** The column at the end of the layout of a document, when the document
    has no newline in a text, [small] or [cont], no [cont] longer than its
    [small], and a flat text shorter than [2^32]. *)
Lemma column_after_document W before v :
  forallb line_strings_ok (emitted before) = true ->
  conts_short before = true ->
  flat_len (emitted before) < uint_max ->
  feed output_visit (corrected 0 before) (output_visitor (uint W)) = Done v ->
  out_hpos v = column (result v).
Proof.
  intros Hn Hcs Hlen Hrun.
  apply (column_exact_run (corrected 0 before) 0 (output_visitor (uint W)) v);
    try assumption.
  - now rewrite (forallb_forget _ _ _ line_strings_ok_forget).
  - now rewrite (forallb_forget _ _ _ cont_short_forget), cont_short_emitted.
  - reflexivity.
  - simpl. lia.
  - constructor.
  - rewrite flat_len_corrected. lia.
Qed.

(** X14.  After a document [before] that has no newline in a text,
    [small] or [cont] and no [cont] longer than its [small], a group is
    laid out flat exactly when the column the cursor is in (the number of
    characters after the last newline of what [before] printed) plus the
    length of the group's flat text is within the page width; otherwise
    the layout is that of the document without the group.  (No counter
    wraps.) *)
Theorem group_fits_within_width (W : Z) (before c : document) :
  0 <= W ->
  forallb line_strings_ok (emitted before) = true ->
  conts_short before = true ->
  W + flat_len (emitted before) + flat_len (emitted c) < uint_max ->
  nesting before < uint_max ->
  nesting c + 1 < uint_max ->
  exists s,
    pretty_print W before = Done s
    /\ pretty_print W (concat_t [before; group_t c])
       = if column s + flat_len (emitted c) <=? W
         then Done (s ++ flat_string (emitted c))%string
         else pretty_print W (concat_t [before; c]).
Proof.
  intros HW Hnl Hcs Hlen Hnb Hnc.
  pose proof (flat_len_nonneg (emitted before)) as HLb.
  pose proof (flat_len_nonneg (emitted c)) as HLc.
  assert (HWr : uint W = W) by (apply uint_small; lia).
  assert (Hinv0 : edge_invariant W (output_visitor (uint W)) 0).
  { unfold edge_invariant. simpl. rewrite HWr. repeat split; auto; lia. }
  destruct (edge_run W before HW Hcs 0 (output_visitor (uint W)) ltac:(lia) Hinv0
              ltac:(lia) ltac:(simpl; lia))
    as (v & Hrun & (Hw & Hh & Hr & Hi & Hf0) & Hf & _).
  simpl in Hf. rewrite Z.add_0_l in Hh, Hr.
  pose proof (column_after_document W before v Hnl Hcs ltac:(lia) Hrun) as Hcol.
  exists (result v). split; [now rewrite pretty_print_feed, Hrun|].
  rewrite <- Hcol.
  rewrite !pretty_print_feed, !corrected_concat, !corrected_children_cons.
  rewrite !feed_app, Hrun, !bind_Done.
  rewrite position_after_flat_len, Z.add_0_l, (uint_small (flat_len _))
    by (try reflexivity; lia).
  cbn [corrected_children]. rewrite !app_nil_r.
  rewrite group_run by (try assumption; apply uint_small; lia).
  rewrite position_after_flat_len by (apply uint_small; lia).
  rewrite uint_idem, uint_small, Hr by lia.
  destruct (Z.leb_spec (flat_len (emitted before) + flat_len (emitted c))
              (W + flat_len (emitted before) - out_hpos v));
    destruct (Z.leb_spec (out_hpos v + flat_len (emitted c)) W); try lia;
    reflexivity.
Qed.

Lemma group_fits_within_width_witness :
  exists s,
    pretty_print 6 (text_t "ab") = Done s
    /\ pretty_print 6
         (concat_t [text_t "ab"; group_t (concat_t [text_t "cd"; br; text_t "ef"])])
       = if column s
            + flat_len (emitted (concat_t [text_t "cd"; br; text_t "ef"])) <=? 6
         then Done (s ++ flat_string
                           (emitted (concat_t [text_t "cd"; br; text_t "ef"])))%string
         else pretty_print 6
                (concat_t [text_t "ab"; concat_t [text_t "cd"; br; text_t "ef"]]).
Proof.
  apply (group_fits_within_width 6 (text_t "ab")
           (concat_t [text_t "cd"; br; text_t "ef"])).
  - lia.
  - reflexivity.
  - reflexivity.
  - reflexivity.
  - reflexivity.
  - reflexivity.
Defined.

(** ** Nests *)

Lemma group_free_nesting c : group_free c = true -> nesting c = 0.
Proof.
  unfold group_free.
  induction c as [t|sm ct tl|ds IH|d IH|d IH] using document_ind; intros H;
    try reflexivity; try discriminate.
  cbn [emitted] in H. rewrite forallb_flat_map in H. cbn [nesting].
  induction IH as [|d ds Hd _ IHds]; [reflexivity|].
  cbn [forallb] in H. apply andb_prop in H as [H1 H2].
  cbn [fold_right]. rewrite (Hd H1), (IHds H2). reflexivity.
Qed.

(** A nest without groups inside, outside every fitting group: it is laid
    out flat when its end is within the right edge; otherwise each of its
    conditionals breaks and indents to the column the nest began in. *)
Lemma nest_plain_run p c v :
  group_free c = true ->
  fittingElements v = 0 ->
  uint (out_hpos v) = out_hpos v ->
  exists v',
    feed output_visit (corrected p (nest_t c)) v = Done v'
    /\ fittingElements v' = 0
    /\ indent v' = indent v
    /\ out_width v' = out_width v
    /\ result v'
       = (result v
          ++ (if (uint (position_after p (emitted c)) <=? rightEdge v)%Z
              then flat_string (emitted c)
              else broken_string (out_hpos v) (emitted c)))%string.
Proof.
  intros Hgf Hf Hh.
  pose proof (group_free_nesting c Hgf) as Hn.
  destruct v as [w f r h i s]. cbn [fittingElements out_hpos rightEdge indent
    out_width result] in *. subst f.
  rewrite corrected_nest, feed_cons, output_visit_nbeg, bind_Done, feed_app.
  cbn [fittingElements out_hpos rightEdge indent out_width result].
  rewrite group_run by (cbn [fittingElements out_hpos]; auto; rewrite Hn; reflexivity).
  cbn [fittingElements out_hpos rightEdge indent out_width result].
  destruct (uint (position_after p (emitted c)) <=? r).
  - rewrite bind_Done, feed_cons. cbn [output_visit indent]. rewrite bind_Done.
    cbn [feed]. eexists. split; [reflexivity|]. cbn. auto.
  - destruct (group_free_corrected c p Hgf) as [Hpl Hhd].
    destruct (broken_run _ Hpl Hhd (mk_output w 0 r h (h :: i) s) eq_refl)
      as (v1 & Hrun & Hf1 & Hi1 & Hw1 & Hs1).
    rewrite Hrun, bind_Done, feed_cons.
    cbn [indent out_width result] in Hi1, Hw1, Hs1.
    rewrite (output_visit_nend _ v1 h i Hi1), bind_Done. cbn [feed].
    eexists. split; [reflexivity|].
    cbn [fittingElements out_hpos rightEdge indent out_width result].
    rewrite Hs1, broken_string_corrected. unfold currentIndent. cbn [indent].
    repeat split; auto.
Qed.

(** X15.  A nest without groups inside, followed by a text, after a
    document [before] that has no newline in a text, [small] or [cont] and
    no [cont] longer than its [small] (and no counter wraps): the nest is
    laid out flat exactly when the column the cursor is in plus the length
    of its flat text is within the page width (the text that follows is
    not counted); otherwise every conditional of the nest breaks, and each
    new line is indented to the column the nest began in. *)
Theorem nest_layout (W : Z) (before c : document) (after : string) :
  0 <= W ->
  forallb line_strings_ok (emitted before) = true ->
  conts_short before = true ->
  group_free c = true ->
  W + flat_len (emitted before) + flat_len (emitted c) < uint_max ->
  nesting before < uint_max ->
  exists s,
    pretty_print W before = Done s
    /\ pretty_print W (concat_t [before; nest_t c; text_t after])
       = Done (s
               ++ (if (column s + flat_len (emitted c) <=? W)%Z
                   then flat_string (emitted c)
                   else broken_string (column s) (emitted c))
               ++ after)%string.
Proof.
  intros HW Hnl Hcs Hgf Hlen Hnb.
  pose proof (flat_len_nonneg (emitted before)) as HLb.
  pose proof (flat_len_nonneg (emitted c)) as HLc.
  assert (HWr : uint W = W) by (apply uint_small; lia).
  assert (Hinv0 : edge_invariant W (output_visitor (uint W)) 0).
  { unfold edge_invariant. simpl. rewrite HWr. repeat split; auto; lia. }
  destruct (edge_run W before HW Hcs 0 (output_visitor (uint W)) ltac:(lia) Hinv0
              ltac:(lia) ltac:(simpl; lia))
    as (v & Hrun & (Hw & Hh & Hr & Hi & Hf0) & Hf & _).
  simpl in Hf. rewrite Z.add_0_l in Hh, Hr.
  pose proof (column_after_document W before v Hnl Hcs ltac:(lia) Hrun) as Hcol.
  exists (result v). split; [now rewrite pretty_print_feed, Hrun|].
  rewrite <- Hcol.
  rewrite pretty_print_feed, corrected_concat, !corrected_children_cons.
  rewrite !feed_app, Hrun, !bind_Done.
  rewrite position_after_flat_len, Z.add_0_l, (uint_small (flat_len _))
    by (try reflexivity; lia).
  destruct (nest_plain_run (flat_len (emitted before)) c v Hgf Hf
              ltac:(apply uint_small; lia))
    as (v1 & Hrun1 & _ & _ & _ & Hs1).
  cbn [corrected_children]. rewrite app_nil_r, feed_app, Hrun1, bind_Done.
  cbn [corrected]. rewrite feed_cons, output_visit_text, bind_Done. cbn [feed].
  rewrite bind_Done. cbn [result]. rewrite Hs1, sapp_assoc.
  rewrite position_after_flat_len by (apply uint_small; lia).
  rewrite uint_idem, uint_small, Hr by lia.
  destruct (Z.leb_spec (flat_len (emitted before) + flat_len (emitted c))
              (W + flat_len (emitted before) - out_hpos v));
    destruct (Z.leb_spec (out_hpos v + flat_len (emitted c)) W); try lia;
    reflexivity.
Qed.

Lemma nest_layout_witness :
  exists s,
    pretty_print 4 (text_t "f(") = Done s
    /\ pretty_print 4
         (concat_t [text_t "f("; nest_t (concat_t [text_t "a,"; br; text_t "b"]);
                    text_t ")"])
       = Done (s
               ++ (if (column s
                       + flat_len (emitted (concat_t [text_t "a,"; br; text_t "b"]))
                       <=? 4)%Z
                   then flat_string (emitted (concat_t [text_t "a,"; br; text_t "b"]))
                   else broken_string (column s)
                          (emitted (concat_t [text_t "a,"; br; text_t "b"])))
               ++ ")")%string.
Proof.
  apply (nest_layout 4 (text_t "f(") (concat_t [text_t "a,"; br; text_t "b"]) ")").
  - lia.
  - reflexivity.
  - reflexivity.
  - reflexivity.
  - reflexivity.
  - reflexivity.
Defined.

(** ** The combinators on texts *)









